(** * Lag-correlation analyzer of [Script5.0.py]

    A shallow embedding of [compute_lag_correlations] and of the part of
    [MainWindow.plot_data] that builds the merged frame and selects the
    optimal lag, together with the properties of the analyzer.

    Conventions of the embedding.
    - Python exceptions are values of [exn]; a call that may raise
      returns a [result].
    - A pandas [Series] is a name, an index and a list of values; a
      [DataFrame] is an index and an ordered list of named columns.
    - float64 values are an abstract type [F] with the operations the
      program relies on ([isna], the fill value [nan], the comparison
      [>] used by the builtin [max]) and pandas' [Series.corr].  The
      structural results hold for every such [F]; the numeric ones are
      stated over an exact model ([PearsonModel]).
    - A Python [dict] is an association list in insertion order.
    - The code is given twice: as pure functions, and over a store of
      shared objects ([Store]) to state what a call leaves untouched.
    - The loader starts from the table [read_csv] returned ([Parsed]);
      the update check runs against a [world] of answers and leaves a
      trace of its calls ([Updater]). *)

From Stdlib Require Import ZArith String Ascii Bool List Sorted Permutation Lia
  Reals Lra.
Import ListNotations.
Local Open Scope string_scope.
Local Open Scope list_scope.
Local Open Scope Z_scope.

(** ** Exceptions and the error monad *)

(** What a [KeyError] reports: a column label or a dict key. *)
Inductive pykey : Type :=
| KStr (s : string)
| KInt (z : Z).

Inductive exn : Type :=
| KeyError (key : pykey)
| ValueError (msg : string)
| TypeError (msg : string).

Inductive result (A : Type) : Type :=
| Ok (a : A)
| Raise (e : exn).

Arguments Ok {A} a.
Arguments Raise {A} e.

Definition bind {A B : Type} (r : result A) (k : A -> result B) : result B :=
  match r with
  | Ok a => k a
  | Raise e => Raise e
  end.

Notation "x <- c ;; k" := (bind c (fun x => k))
  (at level 61, c at next level, right associativity).

(** [for x in items: s = body(s, x)], stopping at the first exception. *)
Fixpoint for_each {S A : Type} (body : S -> A -> result S) (s : S)
    (items : list A) : result S :=
  match items with
  | [] => Ok s
  | x :: rest => s' <- body s x ;; for_each body s' rest
  end.

(** Python's [range(lo, hi)]. *)
Definition range (lo hi : Z) : list Z :=
  map (fun i => lo + Z.of_nat i) (seq 0 (Z.to_nat (hi - lo))).

(** ** float64 as the program uses it *)

Class Float64 (F : Type) : Type := {
  (** [pandas.isna] on a float: true exactly on NaN. *)
  isna : F -> bool;
  (** The value [shift] fills vacated rows with. *)
  nan : F;
  (** The comparison [x > y] of two floats. *)
  fgt : F -> F -> bool;
  (** [Series.corr] (method 'pearson') on two equally long value lists. *)
  corr : list F -> list F -> F
}.

(** The IEEE-754 facts about [>] and NaN the proofs use: NaN compares
    false with everything, and [>] is a strict weak order on the rest. *)
Class Float64Laws (F : Type) `{Float64 F} : Prop := {
  isna_nan : isna nan = true;
  fgt_nan_l : forall x y, isna x = true -> fgt x y = false;
  fgt_nan_r : forall x y, isna y = true -> fgt x y = false;
  fgt_irrefl : forall x, fgt x x = false;
  fgt_trans : forall x y z, fgt x y = true -> fgt y z = true -> fgt x z = true;
  fgt_cotrans : forall x y z,
      isna x = false -> isna y = false -> isna z = false ->
      fgt x z = true -> fgt x y = true \/ fgt y z = true
}.

(** [x] and [y] are both numbers and neither exceeds the other
    (the float comparison [x == y]). *)
Definition ftie {F} `{Float64 F} (x y : F) : Prop :=
  isna x = false /\ isna y = false /\ fgt x y = false /\ fgt y x = false.

(** ** Series and frames *)

Section Frames.
Context {F : Type} `{Float64 F}.

Record Series : Type := mkSeries {
  s_name : string;
  s_index : list Z;
  s_values : list F
}.

Record DataFrame : Type := mkFrame {
  index : list Z;
  columns : list (string * list F)
}.

Definition column_names (df : DataFrame) : list string :=
  map fst (columns df).

Fixpoint lookup_column (name : string) (cols : list (string * list F))
    : option (list F) :=
  match cols with
  | [] => None
  | (n, vs) :: rest =>
      if String.eqb n name then Some vs else lookup_column name rest
  end.

(** [df[name]]: the column as a Series, or [KeyError]. *)
Definition getitem (df : DataFrame) (name : string) : result Series :=
  match lookup_column name (columns df) with
  | Some vs => Ok (mkSeries name (index df) vs)
  | None => Raise (KeyError (KStr name))
  end.

(** [s.shift(periods)]: values move by [periods] rows (towards the
    start when negative), vacated rows are NaN, the index stays. *)
Definition shift_values (periods : Z) (vs : list F) : list F :=
  let n := length vs in
  let p := Nat.min (Z.abs_nat periods) n in
  if periods <? 0 then skipn p vs ++ repeat nan p
  else repeat nan p ++ firstn (n - p) vs.

Definition shift (s : Series) (periods : Z) : Series :=
  mkSeries (s_name s) (s_index s) (shift_values periods (s_values s)).

(** [pd.concat([s1, s2], axis=1)] for two Series over the same index
    (here both come from one frame): the columns side by side. *)
Definition concat_axis1 (s1 s2 : Series) : DataFrame :=
  mkFrame (s_index s1) [(s_name s1, s_values s1); (s_name s2, s_values s2)].

(** Row [i] is kept by [dropna] when no column is NaN there. *)
Fixpoint row_mask (n : nat) (cols : list (string * list F)) : list bool :=
  match cols with
  | [] => repeat true n
  | (_, vs) :: rest =>
      map (fun p => negb (isna (fst p)) && snd p)
          (combine vs (row_mask n rest))
  end.

Fixpoint select {A : Type} (mask : list bool) (xs : list A) : list A :=
  match mask, xs with
  | b :: mask', x :: xs' =>
      if b then x :: select mask' xs' else select mask' xs'
  | _, _ => []
  end.

(** [df.dropna()]: the rows without a missing value. *)
Definition dropna (df : DataFrame) : DataFrame :=
  let mask := row_mask (length (index df)) (columns df) in
  mkFrame (select mask (index df))
          (map (fun c => (fst c, select mask (snd c))) (columns df)).

(** [df.empty]: no rows or no columns. *)
Definition empty (df : DataFrame) : bool :=
  match index df, columns df with
  | [], _ => true
  | _, [] => true
  | _, _ => false
  end.

(** [a.corr(b)] for two columns of one frame. *)
Definition series_corr (a b : Series) : F :=
  corr (s_values a) (s_values b).

(** ** The Correlation Map: a [dict] from lag to coefficient *)

Definition dict : Type := list (Z * F).

(** [d[k] = v]: overwrite in place, or append a new key. *)
Fixpoint dict_set (d : dict) (k : Z) (v : F) : dict :=
  match d with
  | [] => [(k, v)]
  | (k', v') :: rest =>
      if Z.eqb k' k then (k, v) :: rest else (k', v') :: dict_set rest k v
  end.

(** [d.get(k)]: the value, or Python's [None]. *)
Fixpoint dict_get (d : dict) (k : Z) : option F :=
  match d with
  | [] => None
  | (k', v) :: rest => if Z.eqb k' k then Some v else dict_get rest k
  end.

(** [d[k]]: the value, or [KeyError]. *)
Definition dict_getitem (d : dict) (k : Z) : result F :=
  match dict_get d k with
  | Some v => Ok v
  | None => Raise (KeyError (KInt k))
  end.

Definition keys (d : dict) : list Z := map fst d.

(** ** [compute_lag_correlations] (lines 67-75) *)

(** One iteration of the loop body, lines 70-74. *)
Definition lag_body (df_merged : DataFrame) (correlations : dict) (lag : Z)
    : result dict :=
  btc <- getitem df_merged "close_btc" ;;
  let shifted_btc := shift btc (- lag) in
  m2 <- getitem df_merged "close_m2" ;;
  let aligned := dropna (concat_axis1 m2 shifted_btc) in
  if negb (empty aligned) then
    a <- getitem aligned "close_m2" ;;
    b <- getitem aligned "close_btc" ;;
    Ok (dict_set correlations lag (series_corr a b))
  else Ok correlations.

Definition compute_lag_correlations (df_merged : DataFrame) (max_lag : Z)
    : result dict :=
  for_each (lag_body df_merged) [] (range 1 (max_lag + 1)).

(** ** The builtin [max(iterable, key=f)] *)

(** The text of the [ValueError] (CPython up to 3.11; later versions
    word it differently). *)
Definition max_empty_msg : string := "max() arg is an empty sequence".

(** [val > maxval] on what [dict.get] returns: a float or [None]. *)
Definition py_gt (x y : option F) : result bool :=
  match x, y with
  | Some a, Some b => Ok (fgt a b)
  | _, _ => Raise (TypeError "'>' not supported for 'NoneType'")
  end.

(** The scan after the first item: a later item replaces the current
    maximum only when its key value is strictly greater. *)
Fixpoint max_scan (key : Z -> option F) (maxitem : Z) (maxval : option F)
    (items : list Z) : result Z :=
  match items with
  | [] => Ok maxitem
  | item :: rest =>
      let val := key item in
      c <- py_gt val maxval ;;
      if c then max_scan key item val rest
      else max_scan key maxitem maxval rest
  end.

Definition py_max (items : list Z) (key : Z -> option F) : result Z :=
  match items with
  | [] => Raise (ValueError max_empty_msg)
  | item :: rest => max_scan key item (key item) rest
  end.

(** ** The analysis of [plot_data] (lines 139-141)

    The Correlation Map, the optimal lag and its coefficient, for a
    merged frame and a maximum lag. *)
Definition analyzer (df_merged : DataFrame) (max_lag : Z)
    : result (dict * Z * F) :=
  correlations <- compute_lag_correlations df_merged max_lag ;;
  optimal_lag <- py_max (keys correlations) (dict_get correlations) ;;
  optimal_corr <- dict_getitem correlations optimal_lag ;;
  Ok (correlations, optimal_lag, optimal_corr).

(** ** The merged frame of [plot_data] (lines 135-137) *)

(** [df.rename(columns={old: new})]. *)
Definition rename (df : DataFrame) (old new : string) : DataFrame :=
  mkFrame (index df)
    (map (fun c => if String.eqb (fst c) old then (new, snd c) else c)
         (columns df)).

Definition take_rows {A : Type} (d : A) (pos : list nat) (xs : list A)
    : list A :=
  map (fun i => nth i xs d) pos.

(** The row pairs of an inner join on the index: every left row, in
    order, with every right row carrying the same index value. *)
Definition join_positions (li ri : list Z) : list (nat * nat) :=
  flat_map
    (fun i => map (fun j => (i, j))
                (filter (fun j => Z.eqb (nth j ri 0) (nth i li 0))
                        (seq 0 (length ri))))
    (seq 0 (length li)).

Definition mem_string (s : string) (l : list string) : bool :=
  existsb (String.eqb s) l.

(** A column name present on both sides gets the side's suffix. *)
Definition suffixed (others : list string) (suffix : string)
    (c : string * list F) : string :=
  if mem_string (fst c) others then String.append (fst c) suffix
  else fst c.

(** [pd.merge(left, right, left_index=True, right_index=True,
    how='inner')]. *)
Definition merge_inner (left right : DataFrame) : DataFrame :=
  let pos := join_positions (index left) (index right) in
  let lnames := map fst (columns left) in
  let rnames := map fst (columns right) in
  mkFrame
    (take_rows 0 (map fst pos) (index left))
    (map (fun c => (suffixed rnames "_x" c,
                    take_rows nan (map fst pos) (snd c))) (columns left)
     ++
     map (fun c => (suffixed lnames "_y" c,
                    take_rows nan (map snd pos) (snd c))) (columns right)).

Definition MAX_LAG : Z := 180.

(** [df_merged] of [plot_data], from the two frames
    [load_and_filter_csv(...).loc[...]] supplies. *)
Definition merged_frame (df_m2 df_stock : DataFrame) : DataFrame :=
  merge_inner (rename df_m2 "close" "close_m2")
              (rename df_stock "close" "close_stock").

(** [plot_data] up to the selection of the optimal lag, lines 129-141;
    the drawing that follows uses the three values returned here. *)
Definition plot_data (df_m2 df_stock : DataFrame) : result (dict * Z * F) :=
  let df_merged := merged_frame df_m2 df_stock in
  analyzer df_merged MAX_LAG.

(** ** The analyzer in the words of the specification *)

(** The rows two series share at lag [k]: row [t] pairs the first
    series' value at [t] with the second's at [t + k], and is kept
    when both exist and neither is missing. *)
Definition overlap (k : Z) (a b : list F) : list (F * F) :=
  flat_map
    (fun t =>
       match nth_error a t, nth_error b (t + Z.to_nat k) with
       | Some x, Some y => if isna x || isna y then [] else [(x, y)]
       | _, _ => []
       end)
    (seq 0 (length a)).

(** Neither value of the pair is missing. *)
Definition present2 (p : F * F) : bool :=
  negb (isna (fst p)) && negb (isna (snd p)).

(** The coefficient of the two columns of a set of joined rows. *)
Definition rows_corr (rows : list (F * F)) : F :=
  corr (map fst rows) (map snd rows).

(** The entry of lag [k]: none when no row is shared. *)
Definition lag_entry (a b : list F) (k : Z) : list (Z * F) :=
  match overlap k a b with
  | [] => []
  | _ :: _ => [(k, rows_corr (overlap k a b))]
  end.

(** The scan of [max] on entries: the running maximum changes only
    for a strictly greater coefficient. *)
Definition better (best e : Z * F) : Z * F :=
  if fgt (snd e) (snd best) then e else best.

Definition best_entry (first : Z * F) (rest : list (Z * F)) : Z * F :=
  fold_left better rest first.

(** The selection left the undefined coefficients out: [v] is a
    number of the map that no number of the map exceeds. *)
Definition selects_max_number (m : dict) (v : F) : Prop :=
  isna v = false /\
  (exists k, In (k, v) m) /\
  forall k c, In (k, c) m -> isna c = false -> fgt c v = false.

(** The exception is a failed key or index lookup. *)
Definition lookup_failure (e : exn) : Prop := exists k, e = KeyError k.

(** The exception is [max]'s complaint about an empty iterable. *)
Definition empty_selection_failure (e : exn) : Prop :=
  e = ValueError max_empty_msg.

(** The call signals a condition of its own: an error that is neither
    a lookup failure nor the failure of selecting from nothing. *)
Definition signals_distinct_error {A : Type} (r : result A) : Prop :=
  exists e, r = Raise e /\ ~ lookup_failure e /\ ~ empty_selection_failure e.

(** Every column has one value per index entry. *)
Definition wf_frame (df : DataFrame) : Prop :=
  Forall (fun c => length (snd c) = length (index df)) (columns df).

(** The frame holds the two value columns the analyzer reads. *)
Definition holds_columns (df : DataFrame) (m2 btc : list F) : Prop :=
  wf_frame df /\
  lookup_column "close_m2" (columns df) = Some m2 /\
  lookup_column "close_btc" (columns df) = Some btc.

(** What [load_and_filter_csv(path, date_col, 'close')] returns:
    a frame with the single column 'close'. *)
Definition loaded_frame (df : DataFrame) : Prop :=
  wf_frame df /\ column_names df = ["close"].

End Frames.

Arguments Series F : clear implicits.
Arguments DataFrame F : clear implicits.
Arguments dict F : clear implicits.

(** ** The same code over an object store

    Python passes references: [df_merged] names an object that callers
    share.  Here every pandas call allocates its result in a store, and
    the only write is [correlations[lag] = corr] on the dict the
    function created itself. *)

Section Store.
Context {F : Type} `{Float64 F}.

Inductive obj : Type :=
| OFrame (df : DataFrame F)
| OSeries (s : Series F)
| ODict (d : dict F).

(** The store: an object's reference is its position; allocation
    appends. *)
Definition heap : Type := list obj.
Definition ref : Type := nat.

(** A computation reads and extends the store; an exception leaves
    the store as it was when raised. *)
Definition M (A : Type) : Type := heap -> result A * heap.

Definition ret {A : Type} (a : A) : M A := fun h => (Ok a, h).

Definition lift {A : Type} (r : result A) : M A := fun h => (r, h).

Definition bindM {A B : Type} (c : M A) (k : A -> M B) : M B :=
  fun h =>
    match c h with
    | (Ok a, h') => k a h'
    | (Raise e, h') => (Raise e, h')
    end.

Notation "x <~ c ;; k" := (bindM c (fun x => k))
  (at level 61, c at next level, right associativity).

(** A new object, at the next free reference. *)
Definition alloc (o : obj) : M ref :=
  fun h => (Ok (length h), h ++ [o]).

(** The store with the object at [r] replaced. *)
Fixpoint update (r : ref) (o : obj) (h : heap) : heap :=
  match h, r with
  | [], _ => []
  | _ :: h', O => o :: h'
  | x :: h', S r' => x :: update r' o h'
  end.

Definition not_a (what : string) : exn :=
  TypeError (String.append "object is not a " what).

Definition load_frame (r : ref) : M (DataFrame F) :=
  fun h =>
    match nth_error h r with
    | Some (OFrame df) => (Ok df, h)
    | _ => (Raise (not_a "DataFrame"), h)
    end.

Definition load_series (r : ref) : M (Series F) :=
  fun h =>
    match nth_error h r with
    | Some (OSeries s) => (Ok s, h)
    | _ => (Raise (not_a "Series"), h)
    end.

Definition load_dict (r : ref) : M (dict F) :=
  fun h =>
    match nth_error h r with
    | Some (ODict d) => (Ok d, h)
    | _ => (Raise (not_a "dict"), h)
    end.

(** [df[name]]. *)
Definition frame_getitem (df : ref) (name : string) : M ref :=
  d <~ load_frame df ;;
  s <~ lift (getitem d name) ;;
  alloc (OSeries s).

(** [s.shift(periods)]. *)
Definition series_shift (s : ref) (periods : Z) : M ref :=
  v <~ load_series s ;;
  alloc (OSeries (shift v periods)).

(** [pd.concat([s1, s2], axis=1)]. *)
Definition pd_concat (s1 s2 : ref) : M ref :=
  a <~ load_series s1 ;;
  b <~ load_series s2 ;;
  alloc (OFrame (concat_axis1 a b)).

(** [df.dropna()]. *)
Definition frame_dropna (df : ref) : M ref :=
  d <~ load_frame df ;;
  alloc (OFrame (dropna d)).

(** [df.empty]. *)
Definition frame_empty (df : ref) : M bool :=
  d <~ load_frame df ;;
  ret (empty d).

(** [s1.corr(s2)]. *)
Definition series_corr_st (s1 s2 : ref) : M F :=
  a <~ load_series s1 ;;
  b <~ load_series s2 ;;
  ret (series_corr a b).

(** [{}]. *)
Definition dict_new : M ref := alloc (ODict []).

(** [d[k] = v], in place. *)
Definition dict_setitem (d : ref) (k : Z) (v : F) : M unit :=
  m <~ load_dict d ;;
  fun h => (Ok tt, update d (ODict (dict_set m k v)) h).

Fixpoint for_each_st {A : Type} (body : A -> M unit) (items : list A)
    : M unit :=
  match items with
  | [] => ret tt
  | x :: rest => _ <~ body x ;; for_each_st body rest
  end.

(** Lines 70-74. *)
Definition lag_body_st (df_merged correlations : ref) (lag : Z) : M unit :=
  btc <~ frame_getitem df_merged "close_btc" ;;
  shifted_btc <~ series_shift btc (- lag) ;;
  m2 <~ frame_getitem df_merged "close_m2" ;;
  both <~ pd_concat m2 shifted_btc ;;
  aligned <~ frame_dropna both ;;
  is_empty <~ frame_empty aligned ;;
  if negb is_empty then
    a <~ frame_getitem aligned "close_m2" ;;
    b <~ frame_getitem aligned "close_btc" ;;
    c <~ series_corr_st a b ;;
    dict_setitem correlations lag c
  else ret tt.

(** Lines 67-75. *)
Definition compute_lag_correlations_st (df_merged : ref) (max_lag : Z)
    : M ref :=
  correlations <~ dict_new ;;
  _ <~ for_each_st (lag_body_st df_merged correlations)
                   (range 1 (max_lag + 1)) ;;
  ret correlations.

(** Lines 139-141. *)
Definition analyzer_st (df_merged : ref) (max_lag : Z)
    : M (ref * Z * F) :=
  correlations <~ compute_lag_correlations_st df_merged max_lag ;;
  d <~ load_dict correlations ;;
  optimal_lag <~ lift (py_max (keys d) (dict_get d)) ;;
  optimal_corr <~ lift (dict_getitem d optimal_lag) ;;
  ret (correlations, optimal_lag, optimal_corr).

(** What a caller observes of an analysis: the exception, or the
    contents of the returned map with the optimal lag and value. *)
Definition observe (out : result (ref * Z * F) * heap)
    : result (dict F * Z * F) :=
  match out with
  | (Ok (r, k, v), h) =>
      match nth_error h r with
      | Some (ODict d) => Ok (d, k, v)
      | _ => Raise (not_a "dict")
      end
  | (Raise e, _) => Raise e
  end.

(** Every object of [h] is still there, unchanged, in [h']. *)
Definition preserved (h h' : heap) : Prop :=
  forall r o, nth_error h r = Some o -> nth_error h' r = Some o.

End Store.

Arguments obj F : clear implicits.
Arguments heap F : clear implicits.
Arguments M F A : clear implicits.

(** ** An exact model of the coefficients *)

Module PearsonModel.
Local Open Scope R_scope.

(** A float is NaN or a number; numbers are exact reals, so rounding
    and the infinities are outside this model. *)
Inductive float : Type :=
| NaN
| Num (r : R).

Definition float_isna (x : float) : bool :=
  match x with
  | NaN => true
  | Num _ => false
  end.

Definition float_gt (x y : float) : bool :=
  match x, y with
  | Num a, Num b => if Rlt_dec b a then true else false
  | _, _ => false
  end.

Definition total (l : list R) : R := fold_right Rplus 0 l.

Definition mean (l : list R) : R := total l / INR (length l).

Definition deviations (l : list R) : list R :=
  map (fun x => x - mean l) l.

Definition dot (xs ys : list R) : R :=
  total (map (fun p => fst p * snd p) (combine xs ys)).

Definition covariance (xs ys : list R) : R :=
  dot (deviations xs) (deviations ys) / (INR (length xs) - 1).

Definition variance (xs : list R) : R := covariance xs xs.

Definition std (xs : list R) : R := sqrt (variance xs).

(** The pairs in which both values are numbers. *)
Definition valid_pairs (a b : list float) : list (R * R) :=
  flat_map
    (fun p =>
       match p with
       | (Num x, Num y) => [(x, y)]
       | _ => []
       end)
    (combine a b).

(** Modelled from the spec: [Series.corr] is pandas' and not part of
    the repository; section 4.1 gives it as the covariance over the
    product of the standard deviations, undefined (NaN) when a side
    has zero variance. *)
Definition pearson (a b : list float) : float :=
  let ps := valid_pairs a b in
  let xs := map fst ps in
  let ys := map snd ps in
  if Req_dec_T (variance xs) 0 then NaN
  else if Req_dec_T (variance ys) 0 then NaN
  else Num (covariance xs ys / (std xs * std ys)).

#[export] Instance float64 : Float64 float := {
  isna := float_isna;
  nan := NaN;
  fgt := float_gt;
  corr := pearson
}.

(** The coefficient is undefined or lies in [-1, 1]. *)
Definition unit_or_nan (c : float) : Prop :=
  match c with
  | NaN => True
  | Num r => -1 <= r <= 1
  end.

End PearsonModel.

(** ** Sample frames *)

Module Samples.
Import PearsonModel.
Local Open Scope R_scope.

(** At lag 1 the shared rows are (1,5), (2,5): no variance on one
    side.  At lag 2 they are (1,5), (2,7). *)
Definition m2_nan_first : list float := [Num 1; Num 2; NaN; Num 4].
Definition btc_nan_first : list float := [Num 0; Num 5; Num 5; Num 7].

Definition df_nan_first : DataFrame float :=
  mkFrame [1; 2; 3; 4]%Z
    [("close_m2", m2_nan_first); ("close_btc", btc_nan_first)].

(** A single row: no lag leaves a shared row. *)
Definition df_single_row : DataFrame float :=
  mkFrame [1]%Z [("close_m2", [Num 1]); ("close_btc", [Num 2])].

(** Lags 1 and 2 both give two points on a rising line; lag 3 gives
    a single point. *)
Definition m2_tie : list float := [Num 1; Num 2; NaN; NaN].
Definition btc_tie : list float := [Num 0; Num 3; Num 4; Num 5].

Definition df_tie : DataFrame float :=
  mkFrame [1; 2; 3; 4]%Z [("close_m2", m2_tie); ("close_btc", btc_tie)].

Definition map_tie : dict float := [(1%Z, Num 1); (2%Z, Num 1); (3%Z, NaN)].

(** Two frames as the loader returns them. *)
Definition csv_m2 : DataFrame float :=
  mkFrame [1; 2; 3]%Z [("close", [Num 10; Num 11; Num 12])].

Definition csv_stock : DataFrame float :=
  mkFrame [2; 3; 4]%Z [("close", [Num 7; Num 8; Num 9])].

End Samples.

(** ** The values handed to the plot (lines 143-144) *)

Section PlottedPoints.
Context {F : Type} `{Float64 F}.

(** [[f(x) for x in items]], stopping at the first exception. *)
Fixpoint list_comp {A B : Type} (f : A -> result B) (items : list A)
    : result (list B) :=
  match items with
  | [] => Ok []
  | x :: rest => y <- f x ;; ys <- list_comp f rest ;; Ok (y :: ys)
  end.

(** Lines 143-144: the lags and the coefficients handed to the plot. *)
Definition plotted_points (correlations : dict F)
    : result (list Z * list F) :=
  let lags := keys correlations in
  corr_values <- list_comp (dict_getitem correlations) lags ;;
  Ok (lags, corr_values).

End PlottedPoints.

(** ** The loader and the date range (lines 62-65, 132-133) *)

Section Loader.
Context {F : Type} `{Float64 F}.

(** What [pd.read_csv(filepath, parse_dates=[date_col])] returned: the
    parsed date column and the other columns, one value per row.  Every
    row has a date: a file with an unreadable or missing date is
    outside this type. *)
Record Parsed : Type := mkParsed {
  dates : list Z;
  fields : list (string * list F)
}.

(** Row [i] goes before the first row of [sorted] with a later date. *)
Fixpoint insert_row (ts : list Z) (i : nat) (sorted : list nat) : list nat :=
  match sorted with
  | [] => [i]
  | j :: rest =>
      if nth i ts 0 <? nth j ts 0 then i :: j :: rest
      else j :: insert_row ts i rest
  end.

(** The row order of [df.sort_values(date_col)]: ascending dates.  The
    order among equal dates is the sorting algorithm's; here rows with
    equal dates keep their order. *)
Definition argsort (ts : list Z) : list nat :=
  fold_left (fun sorted i => insert_row ts i sorted) (seq 0 (length ts)) [].

(** [df.sort_values(date_col).set_index(date_col)]. *)
Definition sort_set_index (p : Parsed) : DataFrame F :=
  let order := argsort (dates p) in
  mkFrame (take_rows 0 order (dates p))
          (map (fun c => (fst c, take_rows nan order (snd c))) (fields p)).

(** What the [KeyError] of [df[[name]]] carries when the one label asked
    for is missing: pandas' message, not the label (as pandas 1 and 2
    word it, for a label that its [repr] quotes unchanged). *)
Definition none_in_columns (name : string) : string :=
  String.append "None of [Index(['"
    (String.append name "'], dtype='object')] are in the [columns]").

(** [df[[value_col]]]: the frame reduced to one column, or [KeyError]. *)
Definition getitem_list (df : DataFrame F) (name : string)
    : result (DataFrame F) :=
  match lookup_column name (columns df) with
  | Some vs => Ok (mkFrame (index df) [(name, vs)])
  | None => Raise (KeyError (KStr (none_in_columns name)))
  end.

(** [load_and_filter_csv], from the table [read_csv] returned. *)
Definition load_and_filter_csv (parsed : Parsed) (value_col : string)
    : result (DataFrame F) :=
  let df := sort_set_index parsed in
  getitem_list df value_col.

(** [df.loc[start:stop]] on an ascending index: the rows whose index
    lies between the two bounds, both included. *)
Definition loc_slice (df : DataFrame F) (start stop : Z) : DataFrame F :=
  let mask := map (fun t => (start <=? t) && (t <=? stop)) (index df) in
  mkFrame (select mask (index df))
          (map (fun c => (fst c, select mask (snd c))) (columns df)).


(** Every column of the parsed table has one value per date. *)
Definition wf_parsed (p : Parsed) : Prop :=
  Forall (fun c => length (snd c) = length (dates p)) (fields p).

(** The dates an inner join gives for one date [t] of the left index:
    [t] once for every row of [right] that carries it. *)
Definition date_block (right : DataFrame F) (t : Z) : list Z :=
  map (fun _ : nat => t)
    (filter (fun j => Z.eqb (nth j (index right) 0) t)
            (seq 0 (length (index right)))).

End Loader.

Arguments Parsed F : clear implicits.

(** ** The update check (lines 14-51)

    The calls that reach outside the program ([requests.get], [open],
    [print], [os.system], [sys.exit]) are recorded as a trace of
    events; what the network and the file system answer is a [world]
    given in advance.  Text is a string of code points below 256;
    [print], [file.write] and [os.system] are taken not to raise. *)

Module Updater.

Definition CURRENT_VERSION : string := "1.0.0".
Definition VERSION_URL : string :=
  "https://raw.githubusercontent.com/Adamj-3x3/version.txt/refs/heads/main/version.txt".
Definition UPDATE_URL : string :=
  "https://github.com/Adamj-3x3/main/releases/latest/download/yourapp.exe".
Definition NEW_EXE : string := "new_version.exe".

(** What a call raises: an [Exception] (of any subclass) with its
    text, or [SystemExit], which [except Exception] does not catch. *)
Inductive raised : Type :=
| Exception (text : string)
| SystemExit.

Inductive event : Type :=
| Get (url : string)
| Print (text : string)
| Open (path : string)
| Write (path : string) (data : string)
| Close (path : string)
| System (command : string).

Inductive outcome (A : Type) : Type :=
| Returns (a : A)
| Raises (r : raised).

Arguments Returns {A} a.
Arguments Raises {A} r.

(** A run: the events in order, and how the call ended. *)
Definition io (A : Type) : Type := list event * outcome A.

Definition emit (e : event) : io unit := ([e], Returns tt).

Definition raise {A : Type} (r : raised) : io A := ([], Raises r).

Definition and_then {A B : Type} (c : io A) (k : A -> io B) : io B :=
  match c with
  | (t, Returns a) => let (t', o) := k a in (t ++ t', o)
  | (t, Raises r) => (t, Raises r)
  end.

Notation "c >> k" := (and_then c (fun _ => k))
  (at level 62, right associativity).

(** [try: body  except Exception as e: handler(e)]. *)
Definition try_except {A : Type} (body : io A) (handler : string -> io A)
    : io A :=
  match body with
  | (t, Raises (Exception text)) =>
      let (t', o) := handler text in (t ++ t', o)
  | other => other
  end.

(** What a request comes back with: the text of the response, whatever
    its status code, or the error [requests.get] raises. *)
Inductive reply : Type :=
| Body (text : string)
| Fails (text : string).

(** What the outside answers during one run. *)
Record world : Type := mkWorld {
  (** [requests.get(VERSION_URL)]: the body text, or the error raised. *)
  version_reply : reply;
  (** [requests.get(UPDATE_URL, stream=True)]: the error raised, if any. *)
  update_error : option string;
  (** [open("new_version.exe", "wb")]: the error raised, if any. *)
  open_error : option string;
  (** The chunks [iter_content] yields, *)
  chunks : list string;
  (** and the error it raises after them, if any. *)
  stream_error : option string
}.

(** [str.isspace] on a code point below 256. *)
Definition is_space (c : ascii) : bool :=
  let n := nat_of_ascii c in
  ((9 <=? n) && (n <=? 13) || (28 <=? n) && (n <=? 32)
   || (n =? 133) || (n =? 160))%nat.

Fixpoint lstrip (s : string) : string :=
  match s with
  | EmptyString => EmptyString
  | String c rest => if is_space c then lstrip rest else s
  end.

Fixpoint rstrip (s : string) : string :=
  match s with
  | EmptyString => EmptyString
  | String c rest =>
      match rstrip rest with
      | EmptyString => if is_space c then EmptyString else String c EmptyString
      | kept => String c kept
      end
  end.

(** [s.strip()]. *)
Definition strip (s : string) : string := rstrip (lstrip s).

(** [a > b] on two [str]: by code points, a proper prefix being less. *)
Definition str_gt (a b : string) : bool := String.ltb b a.

(** Lines 46-49. *)
Definition restart_app : io unit :=
  emit (System NEW_EXE) >> raise SystemExit.

(** The loop of lines 37-39: empty chunks are not written. *)
Fixpoint write_chunks (cs : list string) : io unit :=
  match cs with
  | [] => ([], Returns tt)
  | chunk :: rest =>
      (if String.eqb chunk "" then ([], Returns tt)
       else emit (Write NEW_EXE chunk))
      >> write_chunks rest
  end.

(** Lines 36-39: the [with] block closes the file however it ends. *)
Definition save_stream (w : world) : io unit :=
  match open_error w with
  | Some text => raise (Exception text)
  | None =>
      emit (Open NEW_EXE) >>
      write_chunks (chunks w) >>
      emit (Close NEW_EXE) >>
      match stream_error w with
      | Some text => raise (Exception text)
      | None => ([], Returns tt)
      end
  end.

(** Lines 32-44. *)
Definition download_update (w : world) : io unit :=
  try_except
    (emit (Get UPDATE_URL) >>
     match update_error w with
     | Some text => raise (Exception text)
     | None =>
         save_stream w >>
         emit (Print "Update downloaded! Restarting app...") >>
         restart_app
     end)
    (fun text => emit (Print (String.append "Update failed: " text))).

(** Lines 18-30. *)
Definition check_for_updates (w : world) : io unit :=
  try_except
    (emit (Get VERSION_URL) >>
     match version_reply w with
     | Fails text => raise (Exception text)
     | Body body =>
         let latest_version := strip body in
         if str_gt latest_version CURRENT_VERSION then
           emit (Print (String.append "New version "
                          (String.append latest_version
                             " available! Downloading update..."))) >>
           download_update w
         else emit (Print "You're up to date!")
     end)
    (fun text =>
       emit (Print (String.append "Error checking for updates: " text))).

(** The bytes the run wrote to [path]. *)
Fixpoint written (path : string) (t : list event) : string :=
  match t with
  | [] => ""
  | Write p data :: rest =>
      if String.eqb p path then String.append data (written path rest)
      else written path rest
  | _ :: rest => written path rest
  end.

(** All the chunks of the download, joined. *)
Definition received (cs : list string) : string :=
  fold_right String.append "" cs.

Fixpoint all_space (s : string) : bool :=
  match s with
  | EmptyString => true
  | String c rest => is_space c && all_space rest
  end.

(** The writes of the loop: one per chunk that is not empty. *)
Definition writes (cs : list string) : list event :=
  map (Write NEW_EXE) (filter (fun c => negb (String.eqb c "")) cs).

(** The line printed before the download. *)
Definition announce (latest_version : string) : event :=
  Print (String.append "New version "
           (String.append latest_version " available! Downloading update...")).

(** The request, the open file and the close are all in place, and the
    stream ran to its end. *)
Definition download_succeeds (w : world) : Prop :=
  update_error w = None /\ open_error w = None /\ stream_error w = None.

(** The same world with another answer to the version request. *)
Definition with_version (w : world) (r : reply) : world :=
  mkWorld r (update_error w) (open_error w) (chunks w) (stream_error w).

(** The step of the download that fails first, with its error text. *)
Definition first_failure (w : world) : option string :=
  match update_error w, open_error w, stream_error w with
  | Some text, _, _ => Some text
  | None, Some text, _ => Some text
  | None, None, failure => failure
  end.

(** The run asked for the new executable. *)
Definition requests_update (t : list event) : Prop := In (Get UPDATE_URL) t.

(** The run touched the file or started a program. *)
Definition touches_system (e : event) : bool :=
  match e with
  | Open _ | Write _ _ | Close _ | System _ => true
  | Get _ | Print _ => false
  end.

(** The remote text is newer than the running version, as the code
    compares them. *)
Definition newer (body : string) : bool :=
  str_gt (strip body) CURRENT_VERSION.

End Updater.

(** ** Sample inputs for the loader and the update check *)

Module MoreSamples.
Import PearsonModel Updater.
Local Open Scope R_scope.

(** A file whose rows are not in date order. *)
Definition parsed_m2 : Parsed float :=
  mkParsed [3; 1; 2]%Z
    [("open", [Num 5; Num 6; Num 7]); ("close", [Num 12; Num 10; Num 11])].

(** A reply that is no version, and a stream that breaks off. *)
Definition world_404 : world :=
  mkWorld (Body "404: Not Found") None None ["MZ"; ""; "PE"]
          (Some "connection reset").

(** A newer version and a download that goes through. *)
Definition world_newer : world :=
  mkWorld (Body "1.0.1") None None ["MZ"; ""; "PE"] None.

Definition line_end : string := String (ascii_of_nat 10) "".

(** At lag 1 the shared rows are (1,5), (2,5): no variance on one
    side.  At lags 2 and 3 they are two points on a rising line. *)
Definition m2_nan_then_tie : list float := [Num 1; Num 2; NaN; NaN; NaN].
Definition btc_nan_then_tie : list float :=
  [Num 0; Num 5; Num 5; Num 6; Num 7].

Definition df_nan_then_tie : DataFrame float :=
  mkFrame [1; 2; 3; 4; 5]%Z
    [("close_m2", m2_nan_then_tie); ("close_btc", btc_nan_then_tie)].

Definition map_nan_then_tie : dict float :=
  [(1%Z, NaN); (2%Z, Num 1); (3%Z, Num 1)].

End MoreSamples.

(** * Properties *)

(** ** Lists, ranges and the error monad *)

Lemma range_nil (lo hi : Z) : hi <= lo -> range lo hi = [].
Proof.
  intros Hle. unfold range.
  replace (Z.to_nat (hi - lo)) with 0%nat by lia. reflexivity.
Qed.

Lemma range_cons (lo hi : Z) : lo < hi -> range lo hi = lo :: range (lo + 1) hi.
Proof.
  intros Hlt. unfold range.
  replace (Z.to_nat (hi - lo)) with (S (Z.to_nat (hi - (lo + 1)))) by lia.
  cbn [seq map]. f_equal; [lia |].
  rewrite <- seq_shift, map_map.
  apply map_ext. intros i. lia.
Qed.

Lemma in_range (lo hi k : Z) : In k (range lo hi) <-> lo <= k < hi.
Proof.
  unfold range. rewrite in_map_iff. split.
  - intros (i & <- & Hi). apply in_seq in Hi. lia.
  - intros Hk. exists (Z.to_nat (k - lo)). split; [lia |].
    apply in_seq. lia.
Qed.

Lemma range_sorted (lo hi : Z) : StronglySorted Z.lt (range lo hi).
Proof.
  unfold range. generalize (Z.to_nat (hi - lo)) as n. intros n.
  revert lo. induction n as [| n IH]; intros lo; cbn [seq map].
  - constructor.
  - constructor.
    + rewrite <- seq_shift, map_map.
      replace (map (fun i => lo + Z.of_nat (S i)) (seq 0 n))
        with (map (fun i => (lo + 1) + Z.of_nat i) (seq 0 n)).
      * apply IH.
      * apply map_ext. intros i. lia.
    + apply Forall_forall. intros k Hk.
      apply in_map_iff in Hk. destruct Hk as (i & <- & Hi).
      apply in_seq in Hi. lia.
Qed.

Lemma flat_map_seq_S {A : Type} (f : nat -> list A) (n : nat) :
  flat_map f (seq 0 (S n)) = f 0%nat ++ flat_map (fun t => f (S t)) (seq 0 n).
Proof.
  cbn [seq flat_map]. f_equal.
  rewrite <- seq_shift.
  generalize (seq 0 n) as l. induction l as [| x l IH]; cbn; [reflexivity |].
  now rewrite IH.
Qed.

Lemma flat_map_ext_seq {A : Type} (f g : nat -> list A) (n : nat) :
  (forall t, (t < n)%nat -> f t = g t) ->
  flat_map f (seq 0 n) = flat_map g (seq 0 n).
Proof.
  revert f g. induction n as [| n IH]; intros f g Hfg; [reflexivity |].
  rewrite !flat_map_seq_S. f_equal.
  - apply Hfg. lia.
  - apply IH. intros t Ht. apply Hfg. lia.
Qed.

Lemma select_map_filter {A B : Type} (g : A -> bool) (h : A -> B) (l : list A) :
  select (map g l) (map h l) = map h (filter g l).
Proof.
  induction l as [| x l IH]; cbn; [reflexivity |].
  destruct (g x); cbn; now rewrite IH.
Qed.

Lemma select_length {A B : Type} (g : A -> bool) (l : list A) (xs : list B) :
  length xs = length l ->
  length (select (map g l) xs) = length (filter g l).
Proof.
  revert xs. induction l as [| x l IH]; intros [| y xs] Hlen; cbn in *;
    try reflexivity; try discriminate.
  destruct (g x); cbn; rewrite IH by lia; reflexivity.
Qed.

Lemma map_fst_combine {A B : Type} (a : list A) (b : list B) :
  length a = length b -> map fst (combine a b) = a.
Proof.
  revert b. induction a as [| x a IH]; intros [| y b] Hlen; cbn in *;
    try reflexivity; try discriminate.
  f_equal. apply IH. lia.
Qed.

Lemma map_snd_combine {A B : Type} (a : list A) (b : list B) :
  length a = length b -> map snd (combine a b) = b.
Proof.
  revert b. induction a as [| x a IH]; intros [| y b] Hlen; cbn in *;
    try reflexivity; try discriminate.
  f_equal. apply IH. lia.
Qed.

(** ** The aligned frame of one lag *)

Section AlignedFacts.
Context {F : Type} `{Float64Laws F}.

Lemma row_mask_two (na nb : string) (a b : list F) (n : nat) :
  length b = n ->
  row_mask n [(na, a); (nb, b)] = map present2 (combine a b).
Proof.
  intros Hlen. cbn [row_mask].
  assert (Hb : map (fun p : F * bool => negb (isna (fst p)) && snd p)
                   (combine b (repeat true n))
               = map (fun y => negb (isna y)) b).
  { subst n. induction b as [| y b IH]; cbn; [reflexivity |].
    rewrite IH, andb_true_r. reflexivity. }
  rewrite Hb. clear Hb Hlen. revert b.
  induction a as [| x a IH]; intros [| y b]; cbn; try reflexivity.
  now rewrite IH.
Qed.

Lemma filter_combine_pointwise (a c : list F) :
  filter present2 (combine a c) =
  flat_map
    (fun t =>
       match nth_error a t, nth_error c t with
       | Some x, Some y => if isna x || isna y then [] else [(x, y)]
       | _, _ => []
       end)
    (seq 0 (length a)).
Proof.
  revert c. induction a as [| x a IH]; intros c; [reflexivity |].
  cbn [length]. rewrite flat_map_seq_S. cbn [nth_error].
  destruct c as [| y c].
  - cbn [combine filter app].
    clear IH. induction (seq 0 (length a)) as [| t l IHl]; [reflexivity |].
    cbn [flat_map]. rewrite <- IHl.
    destruct (nth_error a t); reflexivity.
  - cbn [combine filter nth_error]. rewrite IH.
    unfold present2 at 1. cbn [fst snd].
    rewrite <- negb_orb.
    destruct (isna x || isna y); reflexivity.
Qed.

Lemma shift_values_length (p : Z) (vs : list F) :
  length (shift_values p vs) = length vs.
Proof.
  unfold shift_values.
  destruct (p <? 0).
  - rewrite length_app, length_skipn, repeat_length. lia.
  - rewrite length_app, length_firstn, repeat_length. lia.
Qed.

Lemma nth_error_shift_back (k : Z) (b : list F) (t : nat) :
  1 <= k -> (t < length b)%nat ->
  nth_error (shift_values (- k) b) t =
  match nth_error b (t + Z.to_nat k) with
  | Some y => Some y
  | None => Some nan
  end.
Proof.
  intros Hk Ht. unfold shift_values.
  replace (- k <? 0) with true by (symmetry; apply Z.ltb_lt; lia).
  replace (Z.abs_nat (- k)) with (Z.to_nat k) by lia.
  set (n := length b). set (p := Nat.min (Z.to_nat k) n).
  destruct (Nat.lt_ge_cases (t + Z.to_nat k) n) as [Hin | Hout].
  - assert (Hp : p = Z.to_nat k) by (subst p; lia).
    rewrite nth_error_app1 by (rewrite length_skipn; fold n; lia).
    rewrite nth_error_skipn, Hp, Nat.add_comm.
    destruct (nth_error b (t + Z.to_nat k)) eqn:E; [reflexivity |].
    apply nth_error_None in E. fold n in E. lia.
  - rewrite nth_error_app2 by (rewrite length_skipn; fold n; lia).
    rewrite length_skipn. fold n.
    rewrite nth_error_repeat by (subst p; lia).
    replace (nth_error b (t + Z.to_nat k)) with (@None F); [reflexivity |].
    symmetry. apply nth_error_None. fold n. lia.
Qed.

(** Shifting back by [k], pairing row by row and dropping the rows
    with a missing value leaves the rows shared at lag [k]. *)
Lemma filter_shift_overlap (k : Z) (a b : list F) :
  1 <= k -> length a = length b ->
  filter present2 (combine a (shift_values (- k) b)) = overlap k a b.
Proof.
  intros Hk Hlen. rewrite filter_combine_pointwise. unfold overlap.
  apply flat_map_ext_seq. intros t Ht.
  rewrite nth_error_shift_back by lia.
  destruct (nth_error a t) as [x |]; [| reflexivity].
  destruct (nth_error b (t + Z.to_nat k)) as [y |]; [reflexivity |].
  rewrite isna_nan, orb_true_r. reflexivity.
Qed.

Lemma overlap_present (k : Z) (a b : list F) (x y : F) :
  In (x, y) (overlap k a b) -> isna x = false /\ isna y = false.
Proof.
  unfold overlap. rewrite in_flat_map. intros (t & _ & Hin).
  destruct (nth_error a t) as [x' |]; [| contradiction].
  destruct (nth_error b (t + Z.to_nat k)) as [y' |]; [| contradiction].
  destruct (isna x') eqn:Ex, (isna y') eqn:Ey; cbn in Hin;
    try contradiction.
  destruct Hin as [Heq | []]. inversion Heq; subst. auto.
Qed.

End AlignedFacts.

(** ** Invariants of the Correlation Map, for any frame *)

Section MapInvariants.
Context {F : Type} `{Float64 F}.

Lemma lag_body_cases (df : DataFrame F) (d d' : dict F) (lag : Z) :
  lag_body df d lag = Ok d' ->
  d' = d \/ exists a b, d' = dict_set d lag (corr a b).
Proof.
  unfold lag_body.
  destruct (getitem df "close_btc") as [btc |]; [| discriminate].
  destruct (getitem df "close_m2") as [m2 |]; [| discriminate].
  cbn [bind].
  destruct (negb (empty _)).
  - destruct (getitem _ "close_m2") as [a |]; [| discriminate].
    destruct (getitem _ "close_btc") as [b |]; [| discriminate].
    cbn [bind]. intros Heq. inversion Heq. right.
    exists (s_values a), (s_values b). reflexivity.
  - intros Heq. inversion Heq. now left.
Qed.

Lemma sorted_snoc (ks : list Z) (k : Z) :
  StronglySorted Z.lt ks -> (forall k', In k' ks -> k' < k) ->
  StronglySorted Z.lt (ks ++ [k]).
Proof.
  induction ks as [| j ks IH]; intros Hs Hlt; cbn.
  - repeat constructor.
  - inversion Hs as [| ? ? Hs' Hall]; subst. constructor.
    + apply IH; [assumption | intros; apply Hlt; now right].
    + apply Forall_app. split; [assumption |].
      constructor; [apply Hlt; now left | constructor].
Qed.

Lemma dict_set_fresh (d : dict F) (k : Z) (v : F) :
  ~ In k (keys d) -> dict_set d k v = d ++ [(k, v)].
Proof.
  induction d as [| [k' v'] d IH]; intros Hfresh; [reflexivity |].
  cbn in *. destruct (Z.eqb_spec k' k) as [-> | Hne].
  - exfalso. auto.
  - rewrite IH by tauto. reflexivity.
Qed.

(** The loop keeps the keys ascending, adds only keys it iterates
    over, and stores only values returned by [corr]. *)
Lemma for_each_invariant (df : DataFrame F) (ks : list Z) :
  StronglySorted Z.lt ks ->
  forall d m : dict F,
    StronglySorted Z.lt (keys d) ->
    (forall k' k, In k' (keys d) -> In k ks -> k' < k) ->
    for_each (lag_body df) d ks = Ok m ->
    StronglySorted Z.lt (keys m) /\
    (forall k c, In (k, c) m ->
                 In (k, c) d \/ (In k ks /\ exists a b, c = corr a b)).
Proof.
  induction ks as [| k ks IH]; intros Hsorted d m Hd Hbelow Hrun.
  - cbn in Hrun. inversion Hrun; subst. split; [assumption | auto].
  - inversion Hsorted as [| ? ? Hsorted' Hlt]; subst.
    rewrite Forall_forall in Hlt.
    cbn [for_each] in Hrun.
    destruct (lag_body df d k) as [d' |] eqn:Hbody; [| discriminate].
    cbn [bind] in Hrun.
    assert (Hfresh : ~ In k (keys d)).
    { intros Hin. specialize (Hbelow k k Hin (or_introl eq_refl)). lia. }
    apply lag_body_cases in Hbody.
    destruct Hbody as [-> | (a & b & ->)].
    + destruct (IH Hsorted' d m Hd) as [Hm Hin]; try assumption.
      * intros k' k2 H1 H2. apply Hbelow; [assumption | now right].
      * split; [assumption |].
        intros k2 c Hc. destruct (Hin k2 c Hc) as [? | (? & ?)]; [now left |].
        right. split; [now right | assumption].
    + rewrite dict_set_fresh in Hrun by assumption.
      destruct (IH Hsorted' (d ++ [(k, corr a b)]) m) as [Hm Hin];
        try assumption.
      * unfold keys. rewrite map_app. cbn [map fst].
        apply sorted_snoc; [assumption |].
        intros k' Hk'. apply Hbelow; [assumption | now left].
      * intros k' k2 H1 H2. unfold keys in H1. rewrite map_app in H1.
        apply in_app_or in H1. destruct H1 as [H1 | [<- | []]].
        -- apply Hbelow; [assumption | now right].
        -- now apply Hlt.
      * split; [assumption |].
        intros k2 c Hc. destruct (Hin k2 c Hc) as [Hold | (? & ?)].
        -- apply in_app_or in Hold. destruct Hold as [? | [Heq | []]];
             [now left |].
           inversion Heq; subst. right. split; [now left | eauto].
        -- right. split; [now right | assumption].
Qed.

Lemma compute_invariant (df : DataFrame F) (max_lag : Z) (m : dict F) :
  compute_lag_correlations df max_lag = Ok m ->
  StronglySorted Z.lt (keys m) /\
  (forall k c, In (k, c) m -> 1 <= k <= max_lag /\ exists a b, c = corr a b).
Proof.
  intros Hrun. unfold compute_lag_correlations in Hrun.
  apply for_each_invariant in Hrun.
  - destruct Hrun as [Hs Hin]. split; [assumption |].
    intros k c Hc. destruct (Hin k c Hc) as [[] | (Hk & Hab)].
    apply in_range in Hk. split; [lia | assumption].
  - apply range_sorted.
  - constructor.
  - intros k' k [].
Qed.

End MapInvariants.

(** ** The loop of [compute_lag_correlations] *)

Section ComputeFacts.
Context {F : Type} `{Float64Laws F}.

Lemma lookup_column_length (df : DataFrame F) (name : string) (vs : list F) :
  wf_frame df -> lookup_column name (columns df) = Some vs ->
  length vs = length (index df).
Proof.
  unfold wf_frame. generalize (length (index df)) as n. intros n.
  induction (columns df) as [| [c ws] cols IH]; intros Hwf Hl; cbn in Hl;
    [discriminate |].
  pose proof (Forall_inv Hwf) as Hc. apply Forall_inv_tail in Hwf.
  destruct (String.eqb c name).
  - inversion Hl; subst. exact Hc.
  - now apply IH.
Qed.

Lemma select_combine_fst (g : F * F -> bool) (a b : list F) :
  length a = length b ->
  select (map g (combine a b)) a = map fst (filter g (combine a b)).
Proof.
  intros Hlen. rewrite <- (map_fst_combine a b Hlen) at 2.
  apply select_map_filter.
Qed.

Lemma select_combine_snd (g : F * F -> bool) (a b : list F) :
  length a = length b ->
  select (map g (combine a b)) b = map snd (filter g (combine a b)).
Proof.
  intros Hlen. rewrite <- (map_snd_combine a b Hlen) at 2.
  apply select_map_filter.
Qed.

(** Lines 70-71: the frame [aligned] holds the rows shared at [lag]. *)
Lemma aligned_frame (n1 n2 : string) (idx : list Z) (a b : list F) (lag : Z) :
  1 <= lag -> length a = length idx -> length b = length idx ->
  exists idx',
    dropna (concat_axis1 (mkSeries n1 idx a)
                         (shift (mkSeries n2 idx b) (- lag)))
    = mkFrame idx' [(n1, map fst (overlap lag a b));
                    (n2, map snd (overlap lag a b))]
    /\ length idx' = length (overlap lag a b).
Proof.
  intros Hk Ha Hb.
  unfold dropna, concat_axis1, shift. cbn [index columns s_index s_name s_values map fst snd].
  assert (Hs : length (shift_values (- lag) b) = length idx)
    by now rewrite shift_values_length.
  rewrite row_mask_two by exact Hs.
  rewrite select_combine_fst, select_combine_snd by lia.
  rewrite filter_shift_overlap by lia.
  eexists. split; [reflexivity |].
  rewrite select_length.
  - now rewrite filter_shift_overlap by lia.
  - rewrite length_combine. lia.
Qed.

Lemma lag_body_holds (df : DataFrame F) (m2 btc : list F) (d : dict F) (lag : Z) :
  holds_columns df m2 btc -> 1 <= lag ->
  lag_body df d lag =
  Ok match overlap lag m2 btc with
     | [] => d
     | _ :: _ => dict_set d lag (rows_corr (overlap lag m2 btc))
     end.
Proof.
  intros (Hwf & Hm2 & Hbtc) Hk.
  unfold lag_body, getitem. rewrite Hbtc, Hm2. cbn [bind].
  destruct (aligned_frame "close_m2" "close_btc" (index df) m2 btc lag Hk)
    as (idx' & -> & Hlen);
    eauto using lookup_column_length.
  unfold empty. cbn [index columns].
  destruct (overlap lag m2 btc) as [| r rows] eqn:E.
  - destruct idx'; [reflexivity | discriminate].
  - destruct idx' as [| i idx']; [discriminate |]. reflexivity.
Qed.


(** Without the column 'close_btc' the first statement of the body
    raises. *)
Lemma lag_body_key_error (df : DataFrame F) (d : dict F) (lag : Z) :
  lookup_column "close_btc" (columns df) = None ->
  lag_body df d lag = Raise (KeyError (KStr "close_btc")).
Proof.
  intros Hnone. unfold lag_body, getitem. now rewrite Hnone.
Qed.

Lemma keys_app (d1 d2 : dict F) : keys (d1 ++ d2) = keys d1 ++ keys d2.
Proof. apply map_app. Qed.

Lemma lag_entry_keys (a b : list F) (k : Z) :
  keys (lag_entry a b k) = [] \/ keys (lag_entry a b k) = [k].
Proof.
  unfold lag_entry. destruct (overlap k a b); [left | right]; reflexivity.
Qed.

Lemma for_each_lag_body (df : DataFrame F) (m2 btc : list F) (ks : list Z) :
  holds_columns df m2 btc ->
  forall d : dict F,
    Forall (fun k => 1 <= k) ks ->
    StronglySorted Z.lt ks ->
    (forall k' k, In k' (keys d) -> In k ks -> k' < k) ->
    for_each (lag_body df) d ks = Ok (d ++ flat_map (lag_entry m2 btc) ks).
Proof.
  intros Hcols. induction ks as [| k ks IH]; intros d Hpos Hsorted Hbelow.
  - cbn. now rewrite app_nil_r.
  - inversion Hpos as [| ? ? Hk Hpos']; subst.
    inversion Hsorted as [| ? ? Hsorted' Hlt]; subst.
    cbn [for_each flat_map].
    rewrite (lag_body_holds df m2 btc d k Hcols Hk). cbn [bind].
    assert (Hfresh : ~ In k (keys d)).
    { intros Hin. specialize (Hbelow k k Hin (or_introl eq_refl)). lia. }
    assert (Hstep : match overlap k m2 btc with
                    | [] => d
                    | _ :: _ => dict_set d k (rows_corr (overlap k m2 btc))
                    end = d ++ lag_entry m2 btc k).
    { unfold lag_entry. destruct (overlap k m2 btc).
      - now rewrite app_nil_r.
      - now apply dict_set_fresh. }
    rewrite Hstep, IH; try assumption.
    + now rewrite app_assoc.
    + intros k' k2 Hin Hin2. rewrite keys_app in Hin.
      apply in_app_or in Hin. destruct Hin as [Hin | Hin].
      * apply Hbelow; [assumption | now right].
      * rewrite Forall_forall in Hlt.
        destruct (lag_entry_keys m2 btc k) as [E | E]; rewrite E in Hin.
        -- contradiction.
        -- destruct Hin as [<- | []]. now apply Hlt.
Qed.

(** The Correlation Map in closed form. *)
Lemma compute_closed_form (df : DataFrame F) (m2 btc : list F) (max_lag : Z) :
  holds_columns df m2 btc ->
  compute_lag_correlations df max_lag =
  Ok (flat_map (lag_entry m2 btc) (range 1 (max_lag + 1))).
Proof.
  intros Hcols. unfold compute_lag_correlations.
  rewrite (for_each_lag_body df m2 btc _ Hcols); [reflexivity | | | ].
  - apply Forall_forall. intros k Hk. apply in_range in Hk. lia.
  - apply range_sorted.
  - intros k' k [].
Qed.

Lemma dict_get_entries (a b : list F) (ks : list Z) (k : Z) :
  dict_get (flat_map (lag_entry a b) ks) k =
  if existsb (Z.eqb k) ks then
    match overlap k a b with
    | [] => None
    | _ :: _ => Some (rows_corr (overlap k a b))
    end
  else None.
Proof.
  induction ks as [| j ks IH]; [reflexivity |].
  cbn [flat_map existsb]. unfold lag_entry at 1.
  destruct (Z.eqb_spec k j) as [-> | Hne]; cbn [orb].
  - destruct (overlap j a b) eqn:E; cbn [app].
    + rewrite IH. now destruct (existsb (Z.eqb j) ks).
    + cbn [dict_get]. now rewrite Z.eqb_refl.
  - destruct (overlap j a b); cbn [app dict_get]; [exact IH |].
    destruct (Z.eqb_spec j k); [congruence | exact IH].
Qed.

Lemma existsb_range (lo hi k : Z) :
  existsb (Z.eqb k) (range lo hi) = (lo <=? k) && (k <? hi).
Proof.
  destruct (existsb (Z.eqb k) (range lo hi)) eqn:E.
  - apply existsb_exists in E. destruct E as (j & Hin & Heq).
    apply Z.eqb_eq in Heq. subst j. apply in_range in Hin.
    symmetry. apply andb_true_iff. split; [apply Z.leb_le | apply Z.ltb_lt]; lia.
  - symmetry. apply not_true_is_false. intros Hin.
    apply andb_true_iff in Hin. destruct Hin as [H1 H2].
    apply Z.leb_le in H1. apply Z.ltb_lt in H2.
    assert (Hex : existsb (Z.eqb k) (range lo hi) = true).
    { apply existsb_exists. exists k. split; [apply in_range; lia | apply Z.eqb_refl]. }
    congruence.
Qed.

Lemma keys_entries (a b : list F) (ks : list Z) (k : Z) :
  In k (keys (flat_map (lag_entry a b) ks)) -> In k ks.
Proof.
  induction ks as [| j ks IH]; cbn [flat_map]; [contradiction |].
  rewrite keys_app. intros Hin. apply in_app_or in Hin.
  destruct Hin as [Hin | Hin]; [| right; auto].
  destruct (lag_entry_keys a b j) as [E | E]; rewrite E in Hin.
  - contradiction.
  - destruct Hin as [<- | []]. now left.
Qed.

(** What the map holds at each lag of the range. *)
Lemma compute_lookup (df : DataFrame F) (m2 btc : list F) (max_lag : Z) :
  holds_columns df m2 btc ->
  exists m,
    compute_lag_correlations df max_lag = Ok m /\
    (forall k, In k (keys m) -> 1 <= k <= max_lag) /\
    forall k, 1 <= k <= max_lag ->
      dict_get m k = match overlap k m2 btc with
                     | [] => None
                     | _ :: _ => Some (rows_corr (overlap k m2 btc))
                     end.
Proof.
  intros Hcols. eexists. split; [| split].
  - apply (compute_closed_form df m2 btc max_lag Hcols).
  - intros k Hk. apply keys_entries, in_range in Hk. lia.
  - intros k Hk. rewrite dict_get_entries, existsb_range.
    replace ((1 <=? k) && (k <? max_lag + 1)) with true; [reflexivity |].
    symmetry. apply andb_true_iff.
    split; [apply Z.leb_le | apply Z.ltb_lt]; lia.
Qed.

Lemma dict_get_none (m : dict F) (k : Z) :
  dict_get m k = None <-> ~ In k (keys m).
Proof.
  induction m as [| [k' c] m IH]; cbn; [tauto |].
  destruct (Z.eqb_spec k' k) as [-> | Hne].
  - split; [discriminate | intros Hn; exfalso; auto].
  - rewrite IH. tauto.
Qed.

End ComputeFacts.

(** ** The builtin [max] on a Correlation Map *)

Section MaxFacts.
Context {F : Type} `{Float64Laws F}.

Lemma dict_get_in (m : dict F) (k : Z) (c : F) :
  NoDup (keys m) -> In (k, c) m -> dict_get m k = Some c.
Proof.
  induction m as [| [k' c'] m IH]; intros Hnd Hin; [contradiction |].
  cbn in *. inversion Hnd as [| ? ? Hnotin Hnd']; subst.
  destruct Hin as [Heq | Hin].
  - inversion Heq; subst. now rewrite Z.eqb_refl.
  - destruct (Z.eqb_spec k' k) as [-> | Hne].
    + exfalso. apply Hnotin. change k with (fst (k, c)). now apply in_map.
    + now apply IH.
Qed.

Lemma sorted_nodup (ks : list Z) : StronglySorted Z.lt ks -> NoDup ks.
Proof.
  induction 1 as [| k ks Hs IH Hall]; constructor; [| assumption].
  intros Hin. rewrite Forall_forall in Hall. specialize (Hall k Hin). lia.
Qed.

(** On keys that all have a value, [max] scans like [best_entry]. *)
Lemma max_scan_entries (key : Z -> option F) (es : list (Z * F)) :
  (forall e, In e es -> key (fst e) = Some (snd e)) ->
  forall best,
    max_scan key (fst best) (Some (snd best)) (map fst es)
    = Ok (fst (best_entry best es)).
Proof.
  unfold best_entry.
  induction es as [| e es IH]; intros Hkey best; [reflexivity |].
  cbn [map max_scan fold_left].
  rewrite (Hkey e (or_introl eq_refl)). cbn [py_gt bind].
  unfold better at 2.
  destruct (fgt (snd e) (snd best)); apply IH; intros; apply Hkey; now right.
Qed.

Lemma best_entry_in (first : Z * F) (rest : list (Z * F)) :
  In (best_entry first rest) (first :: rest).
Proof.
  unfold best_entry. revert first.
  induction rest as [| e rest IH]; intros first; [now left |].
  cbn [fold_left]. specialize (IH (better first e)).
  destruct IH as [Heq | Hin].
  - rewrite <- Heq. unfold better.
    destruct (fgt (snd e) (snd first)); [right; now left | now left].
  - right. now right.
Qed.

(** A NaN in first place is never replaced. *)
Lemma best_entry_nan_first (first : Z * F) (rest : list (Z * F)) :
  isna (snd first) = true -> best_entry first rest = first.
Proof.
  intros Hnan. unfold best_entry.
  induction rest as [| e rest IH]; [reflexivity |].
  cbn [fold_left]. unfold better at 2.
  now rewrite (fgt_nan_r (snd e) (snd first) Hnan).
Qed.

Lemma fgt_asym (x y : F) : fgt x y = true -> fgt y x = false.
Proof.
  intros Hxy. destruct (fgt y x) eqn:Hyx; [| reflexivity].
  pose proof (fgt_trans x y x Hxy Hyx) as Hxx.
  rewrite fgt_irrefl in Hxx. discriminate.
Qed.

Lemma fgt_not_nan (x y : F) : fgt x y = true -> isna x = false /\ isna y = false.
Proof.
  intros Hxy. split.
  - destruct (isna x) eqn:E; [| reflexivity].
    rewrite (fgt_nan_l x y E) in Hxy. discriminate.
  - destruct (isna y) eqn:E; [| reflexivity].
    rewrite (fgt_nan_r x y E) in Hxy. discriminate.
Qed.

(** The scan from a number: the result is a number, every number
    before it in scan order is strictly smaller, nothing after it is
    greater. *)
Lemma best_entry_split (rest : list (Z * F)) :
  forall (pre : list (Z * F)) (best : Z * F) (post : list (Z * F)),
    isna (snd best) = false ->
    (forall e, In e pre -> isna (snd e) = false ->
               fgt (snd best) (snd e) = true) ->
    (forall e, In e post -> fgt (snd e) (snd best) = false) ->
    exists l1 l2,
      pre ++ best :: post ++ rest = l1 ++ best_entry best rest :: l2 /\
      isna (snd (best_entry best rest)) = false /\
      (forall e, In e l1 -> isna (snd e) = false ->
                 fgt (snd (best_entry best rest)) (snd e) = true) /\
      (forall e, In e l2 -> fgt (snd e) (snd (best_entry best rest)) = false).
Proof.
  unfold best_entry.
  induction rest as [| e rest IH]; intros pre best post Hnum Hpre Hpost.
  - exists pre, post. rewrite app_nil_r. cbn. auto.
  - cbn [fold_left]. unfold better at 2 4 6 8.
    destruct (fgt (snd e) (snd best)) eqn:Hgt.
    + destruct (fgt_not_nan _ _ Hgt) as [He _].
      destruct (IH (pre ++ best :: post) e []) as (l1 & l2 & Heq & Hrest);
        try assumption.
      * intros s Hs Hsnum. apply in_app_or in Hs.
        destruct Hs as [Hs | [<- | Hs]].
        -- eapply fgt_trans; [exact Hgt | now apply Hpre].
        -- exact Hgt.
        -- destruct (fgt_cotrans (snd e) (snd s) (snd best) He Hsnum Hnum Hgt)
             as [Hes | Hsb]; [exact Hes |].
           rewrite (Hpost s Hs) in Hsb. discriminate.
      * intros s [].
      * exists l1, l2. split; [| exact Hrest].
        rewrite <- Heq. rewrite <- app_assoc. reflexivity.
    + destruct (IH pre best (post ++ [e])) as (l1 & l2 & Heq & Hrest);
        try assumption.
      * intros s Hs. apply in_app_or in Hs.
        destruct Hs as [Hs | [<- | []]]; [now apply Hpost | exact Hgt].
      * exists l1, l2. split; [| exact Hrest].
        rewrite <- Heq. rewrite <- app_assoc. reflexivity.
Qed.

(** Lines 140-141 on a non-empty map with distinct keys. *)
Lemma select_optimal (first : Z * F) (rest : list (Z * F)) :
  NoDup (keys (first :: rest)) ->
  py_max (keys (first :: rest)) (dict_get (first :: rest))
  = Ok (fst (best_entry first rest)) /\
  dict_getitem (first :: rest) (fst (best_entry first rest))
  = Ok (snd (best_entry first rest)).
Proof.
  intros Hnd. set (m := first :: rest) in *.
  assert (Hget : forall e, In e m -> dict_get m (fst e) = Some (snd e)).
  { intros [k c] Hin. now apply dict_get_in. }
  split.
  - unfold py_max, keys. subst m. cbn [map].
    rewrite (Hget first (or_introl eq_refl)).
    apply max_scan_entries. intros e He. apply Hget. now right.
  - unfold dict_getitem. now rewrite (Hget _ (best_entry_in first rest)).
Qed.

Lemma analyzer_selects (df : DataFrame F) (max_lag : Z)
    (first : Z * F) (rest : list (Z * F)) :
  compute_lag_correlations df max_lag = Ok (first :: rest) ->
  analyzer df max_lag
  = Ok (first :: rest, fst (best_entry first rest), snd (best_entry first rest)).
Proof.
  intros Hrun. unfold analyzer. rewrite Hrun. cbn [bind].
  destruct (compute_invariant df max_lag _ Hrun) as [Hsorted _].
  destruct (select_optimal first rest (sorted_nodup _ Hsorted)) as [Hmax Hget].
  rewrite Hmax. cbn [bind]. rewrite Hget. reflexivity.
Qed.

Lemma analyzer_empty (df : DataFrame F) (max_lag : Z) :
  compute_lag_correlations df max_lag = Ok [] ->
  analyzer df max_lag = Raise (ValueError max_empty_msg).
Proof.
  intros Hrun. unfold analyzer. now rewrite Hrun.
Qed.

End MaxFacts.

(** ** The object store: the stateful code refines the pure one *)

Section StoreFacts.
Context {F : Type} `{Float64 F}.

Lemma nth_error_extend (h ext : heap F) (r : ref) (o : obj F) :
  nth_error h r = Some o -> nth_error (h ++ ext) r = Some o.
Proof.
  intros Hr. rewrite nth_error_app1; [exact Hr |].
  apply nth_error_Some. congruence.
Qed.

Lemma nth_error_fresh (h : heap F) (o : obj F) :
  nth_error (h ++ [o]) (length h) = Some o.
Proof.
  rewrite nth_error_app2 by lia. now rewrite Nat.sub_diag.
Qed.

Lemma nth_error_update_same (h : heap F) (r : ref) (o o' : obj F) :
  nth_error h r = Some o' -> nth_error (update r o h) r = Some o.
Proof.
  revert r. induction h as [| x h IH]; intros [| r] Hr; cbn in *;
    try discriminate; auto.
Qed.

Lemma nth_error_update_other (h : heap F) (r r' : ref) (o : obj F) :
  r <> r' -> nth_error (update r o h) r' = nth_error h r'.
Proof.
  revert r r'. induction h as [| x h IH]; intros [| r] [| r'] Hne; cbn;
    try reflexivity; try lia.
  apply IH. lia.
Qed.

Lemma preserved_trans (h1 h2 h3 : heap F) :
  preserved h1 h2 -> preserved h2 h3 -> preserved h1 h3.
Proof. intros H12 H23 r o Hr. auto. Qed.

(** One iteration: the result is that of [lag_body] on the contents
    of the dict, which is the only object written. *)
Lemma lag_body_st_run (h : heap F) (df_ref corr_ref : ref)
    (df : DataFrame F) (d : dict F) (lag : Z) :
  nth_error h df_ref = Some (OFrame df) ->
  nth_error h corr_ref = Some (ODict d) ->
  exists h',
    lag_body_st df_ref corr_ref lag h
    = (match lag_body df d lag with
       | Ok _ => Ok tt
       | Raise e => Raise e
       end, h') /\
    (forall r o, r <> corr_ref -> nth_error h r = Some o ->
                 nth_error h' r = Some o) /\
    nth_error h' corr_ref
    = Some (ODict match lag_body df d lag with
                  | Ok d' => d'
                  | Raise _ => d
                  end).
Proof.
  intros Hdf Hd.
  unfold lag_body_st, lag_body, frame_getitem, series_shift, pd_concat,
    frame_dropna, frame_empty, series_corr_st, dict_setitem,
    load_frame, load_series, load_dict, alloc, lift, ret, bindM.
  rewrite Hdf.
  destruct (getitem df "close_btc") as [btc | e1].
  2:{ exists h. cbn [bind]. auto. }
  cbn [bind].
  rewrite nth_error_fresh.
  rewrite (nth_error_extend _ _ _ _ (nth_error_extend _ _ _ _ Hdf)).
  destruct (getitem df "close_m2") as [m2 | e2].
  2:{ eexists. split; [reflexivity |]. split.
      - intros r o _ Hr. now repeat apply nth_error_extend.
      - now repeat apply nth_error_extend. }
  cbn [bind].
  set (h1 := (h ++ [OSeries btc]) ++ [OSeries (shift btc (- lag))]).
  set (h2 := h1 ++ [OSeries m2]).
  assert (E1 : nth_error h2 (length h1) = Some (OSeries m2))
    by apply nth_error_fresh.
  assert (E2 : nth_error h2 (length (h ++ [OSeries btc]))
               = Some (OSeries (shift btc (- lag)))).
  { unfold h2. apply nth_error_extend. apply nth_error_fresh. }
  rewrite E1, E2. cbv beta iota.
  rewrite nth_error_fresh. cbv beta iota.
  rewrite nth_error_fresh. cbv beta iota.
  set (aligned := dropna (concat_axis1 m2 (shift btc (- lag)))).
  set (h3 := (h2 ++ [OFrame (concat_axis1 m2 (shift btc (- lag)))])
             ++ [OFrame aligned]).
  assert (Hold : forall r o, nth_error h r = Some o -> nth_error h3 r = Some o).
  { intros r o Hr. unfold h3, h2, h1. now repeat apply nth_error_extend. }
  assert (E0 : nth_error h3 (length (h2 ++ [OFrame (concat_axis1 m2 (shift btc (- lag)))]))
               = Some (OFrame aligned)) by apply nth_error_fresh.
  destruct (negb (empty aligned)).
  - rewrite E0. cbv beta iota.
    destruct (getitem aligned "close_m2") as [a | e3].
    2:{ eexists. split; [reflexivity |]. split; [intros; auto | auto]. }
    cbn [bind]. cbv beta iota.
    rewrite (nth_error_extend _ [OSeries a] _ _ E0). cbv beta iota.
    destruct (getitem aligned "close_btc") as [b | e4].
    2:{ eexists. split; [reflexivity |]. split.
        - intros r o _ Hr. apply nth_error_extend. auto.
        - apply nth_error_extend. auto. }
    cbn [bind]. cbv beta iota.
    set (h4 := h3 ++ [OSeries a]). set (h5 := h4 ++ [OSeries b]).
    assert (E3 : nth_error h5 (length h3) = Some (OSeries a)).
    { unfold h5, h4. apply nth_error_extend. apply nth_error_fresh. }
    assert (E4 : nth_error h5 (length h4) = Some (OSeries b))
      by apply nth_error_fresh.
    assert (E5 : nth_error h5 corr_ref = Some (ODict d)).
    { unfold h5, h4. repeat apply nth_error_extend. auto. }
    rewrite E3, E4. cbv beta iota. rewrite E5. cbv beta iota.
    eexists. split; [reflexivity |]. split.
    + intros r o Hne Hr. rewrite nth_error_update_other by congruence.
      unfold h5, h4. repeat apply nth_error_extend. auto.
    + eapply nth_error_update_same. exact E5.
  - eexists. split; [reflexivity |]. split; [intros; auto | auto].
Qed.

Lemma for_each_st_run (df_ref corr_ref : ref) (df : DataFrame F)
    (ks : list Z) :
  forall (h : heap F) (d : dict F),
    nth_error h df_ref = Some (OFrame df) ->
    nth_error h corr_ref = Some (ODict d) ->
    df_ref <> corr_ref ->
    exists h',
      for_each_st (lag_body_st df_ref corr_ref) ks h
      = (match for_each (lag_body df) d ks with
         | Ok _ => Ok tt
         | Raise e => Raise e
         end, h') /\
      (forall r o, r <> corr_ref -> nth_error h r = Some o ->
                   nth_error h' r = Some o) /\
      (forall m, for_each (lag_body df) d ks = Ok m ->
                 nth_error h' corr_ref = Some (ODict m)).
Proof.
  induction ks as [| k ks IH]; intros h d Hdf Hd Hne.
  - exists h. cbn. split; [reflexivity |]. split; [auto |].
    intros m Hm. inversion Hm; subst. exact Hd.
  - cbn [for_each_st for_each]. unfold bindM at 1.
    destruct (lag_body_st_run h df_ref corr_ref df d k Hdf Hd)
      as (h1 & Hrun & Hkeep & Hdict).
    rewrite Hrun.
    destruct (lag_body df d k) as [d' | e]; cbn [bind].
    + destruct (IH h1 d') as (h2 & Hrun2 & Hkeep2 & Hdict2); auto.
      exists h2. split; [exact Hrun2 |]. split; auto.
    + exists h1. split; [reflexivity |]. split; [auto |].
      intros m Hm. discriminate.
Qed.

(** The stateful function returns a fresh dict holding the map the
    pure function returns, and leaves every earlier object as it
    was. *)
Lemma compute_st_run (h : heap F) (df_ref : ref) (df : DataFrame F)
    (max_lag : Z) :
  nth_error h df_ref = Some (OFrame df) ->
  exists h',
    compute_lag_correlations_st df_ref max_lag h
    = (match compute_lag_correlations df max_lag with
       | Ok _ => Ok (length h)
       | Raise e => Raise e
       end, h') /\
    preserved h h' /\
    (forall m, compute_lag_correlations df max_lag = Ok m ->
               nth_error h' (length h) = Some (ODict m)).
Proof.
  intros Hdf.
  assert (Hlt : (df_ref < length h)%nat)
    by (apply nth_error_Some; congruence).
  unfold compute_lag_correlations_st, compute_lag_correlations, dict_new,
    alloc. unfold bindM at 1. unfold bindM at 1.
  destruct (for_each_st_run df_ref (length h) df (range 1 (max_lag + 1))
              (h ++ [ODict []]) [])
    as (h' & Hrun & Hkeep & Hdict).
  - now apply nth_error_extend.
  - apply nth_error_fresh.
  - lia.
  - rewrite Hrun. exists h'.
    destruct (for_each (lag_body df) [] (range 1 (max_lag + 1))) as [m | e].
    + split; [reflexivity |]. split; [| exact Hdict].
      intros r o Hr. apply Hkeep.
      * assert ((r < length h)%nat) by (apply nth_error_Some; congruence). lia.
      * now apply nth_error_extend.
    + split; [reflexivity |]. split; [| intros m Hm; discriminate].
      intros r o Hr. apply Hkeep.
      * assert ((r < length h)%nat) by (apply nth_error_Some; congruence). lia.
      * now apply nth_error_extend.
Qed.

(** What the caller observes of the stateful analysis is the result
    of the pure one. *)
Lemma analyzer_st_run (h : heap F) (df_ref : ref) (df : DataFrame F)
    (max_lag : Z) :
  nth_error h df_ref = Some (OFrame df) ->
  observe (analyzer_st df_ref max_lag h) = analyzer df max_lag /\
  preserved h (snd (analyzer_st df_ref max_lag h)).
Proof.
  intros Hdf.
  destruct (compute_st_run h df_ref df max_lag Hdf)
    as (h' & Hrun & Hkeep & Hdict).
  assert (Hout : analyzer_st df_ref max_lag h
                 = (match analyzer df max_lag with
                    | Ok (_, k, v) => Ok (length h, k, v)
                    | Raise e => Raise e
                    end, h')).
  { unfold analyzer_st, analyzer. unfold bindM at 1. rewrite Hrun.
    destruct (compute_lag_correlations df max_lag) as [m | e]; cbn [bind];
      [| reflexivity].
    specialize (Hdict m eq_refl).
    unfold bindM, load_dict, lift, ret. rewrite Hdict.
    destruct (py_max (keys m) (dict_get m)) as [k | e]; cbn [bind];
      [| reflexivity].
    destruct (dict_getitem m k) as [v | e]; reflexivity. }
  rewrite Hout. cbn [snd]. split; [| exact Hkeep].
  unfold analyzer in *.
  destruct (compute_lag_correlations df max_lag) as [m | e]; cbn [bind];
    [| reflexivity].
  specialize (Hdict m eq_refl).
  destruct (py_max (keys m) (dict_get m)) as [k | e]; cbn [bind];
    [| reflexivity].
  destruct (dict_getitem m k) as [v | e]; cbn [bind observe];
    [| reflexivity].
  now rewrite Hdict.
Qed.

End StoreFacts.

(** ** The exact model: float laws and the range of the coefficient *)

Module PearsonFacts.
Import PearsonModel.
Local Open Scope R_scope.

#[export] Instance float64_laws : Float64Laws float.
Proof.
  split.
  - reflexivity.
  - intros [| x] y; [reflexivity | discriminate].
  - intros [| x] [| y]; cbn; try reflexivity; discriminate.
  - intros [| x]; cbn; [reflexivity |].
    destruct (Rlt_dec x x); [lra | reflexivity].
  - intros [| x] [| y] [| z]; cbn; try discriminate.
    destruct (Rlt_dec y x), (Rlt_dec z y), (Rlt_dec z x);
      try discriminate; try reflexivity; lra.
  - intros [| x] [| y] [| z]; cbn; try discriminate.
    intros _ _ _.
    destruct (Rlt_dec z x), (Rlt_dec y x), (Rlt_dec z y);
      try discriminate; auto; lra.
Qed.

Lemma dot_cons (x y : R) (xs ys : list R) :
  dot (x :: xs) (y :: ys) = x * y + dot xs ys.
Proof. reflexivity. Qed.

Lemma dot_self_nonneg (xs : list R) : 0 <= dot xs xs.
Proof.
  induction xs as [| x xs IH]; [unfold dot; cbn; lra |].
  rewrite dot_cons. pose proof (Rle_0_sqr x) as Hx. unfold Rsqr in Hx. lra.
Qed.

(** Cauchy-Schwarz for two equally long lists. *)
Lemma cauchy_schwarz (xs ys : list R) :
  length xs = length ys ->
  dot xs ys * dot xs ys <= dot xs xs * dot ys ys.
Proof.
  revert ys. induction xs as [| x xs IH]; intros [| y ys] Hlen;
    try discriminate.
  - unfold dot. cbn. lra.
  - rewrite !dot_cons.
    assert (Hxy := IH ys ltac:(cbn in Hlen; lia)).
    pose proof (dot_self_nonneg xs) as HA.
    pose proof (dot_self_nonneg ys) as HB.
    set (s := dot xs ys) in *. set (A := dot xs xs) in *.
    set (B := dot ys ys) in *.
    clearbody s A B. clear IH Hlen.
    pose proof (Rle_0_sqr y) as Hy. unfold Rsqr in Hy.
    destruct (Req_dec B 0) as [HB0 | HB0].
    + subst B. assert (Hs : s = 0).
      { pose proof (Rle_0_sqr s) as Hs. unfold Rsqr in Hs.
        apply Rsqr_0_uniq. unfold Rsqr. lra. }
      subst s.
      assert (0 <= y * y * A) by (apply Rmult_le_pos; lra).
      ring_simplify. lra.
    + assert (HBpos : 0 < B) by lra.
      pose proof (Rle_0_sqr (x * B - y * s)) as Hsq. unfold Rsqr in Hsq.
      assert (HQ : 0 <= x * x * B - 2 * x * y * s + y * y * A).
      { apply (Rmult_le_reg_l B); [exact HBpos |].
        rewrite Rmult_0_r.
        replace (B * (x * x * B - 2 * x * y * s + y * y * A))
          with ((x * B - y * s) * (x * B - y * s)
                + y * y * (A * B - s * s)) by ring.
        assert (0 <= y * y * (A * B - s * s)) by (apply Rmult_le_pos; lra).
        lra. }
      lra.
Qed.

Lemma deviations_length (xs : list R) : length (deviations xs) = length xs.
Proof. unfold deviations. apply length_map. Qed.

(** Fewer than two values have no variance. *)
Lemma variance_short (xs : list R) :
  (length xs <= 1)%nat -> variance xs = 0.
Proof.
  destruct xs as [| x [| x' xs]]; cbn [length]; intros Hlen; try lia.
  - unfold variance, covariance, dot. cbn. lra.
  - unfold variance, covariance, deviations, mean, dot, total. cbn.
    replace (x - (x + 0) / 1) with 0 by (field).
    lra.
Qed.

Lemma variance_nonzero_size (xs : list R) :
  variance xs <> 0 -> 0 < INR (length xs) - 1.
Proof.
  intros Hv.
  destruct (Nat.le_gt_cases (length xs) 1) as [Hle | Hgt].
  - exfalso. apply Hv. now apply variance_short.
  - apply lt_INR in Hgt. cbn in Hgt. lra.
Qed.

(** With both variances non-zero the quotient lies in [-1, 1]. *)
Lemma quotient_range (xs ys : list R) :
  length xs = length ys ->
  variance xs <> 0 -> variance ys <> 0 ->
  -1 <= covariance xs ys / (std xs * std ys) <= 1.
Proof.
  intros Hlen Hvx Hvy.
  pose proof (variance_nonzero_size xs Hvx) as HD.
  pose proof (cauchy_schwarz (deviations xs) (deviations ys)
                ltac:(rewrite !deviations_length; exact Hlen)) as Hcs.
  pose proof (dot_self_nonneg (deviations xs)) as HA.
  pose proof (dot_self_nonneg (deviations ys)) as HB.
  unfold std. unfold variance, covariance in *.
  rewrite <- Hlen in *.
  set (D := INR (length xs) - 1) in *.
  set (s := dot (deviations xs) (deviations ys)) in *.
  set (A := dot (deviations xs) (deviations xs)) in *.
  set (B := dot (deviations ys) (deviations ys)) in *.
  clearbody D s A B.
  assert (Hi : 0 < / D) by now apply Rinv_0_lt_compat.
  unfold Rdiv in *. set (i := / D) in *. clearbody i.
  assert (HvA : 0 < A * i).
  { assert (0 <= A * i) by (apply Rmult_le_pos; lra). lra. }
  assert (HvB : 0 < B * i).
  { assert (0 <= B * i) by (apply Rmult_le_pos; lra). lra. }
  pose proof (sqrt_lt_R0 _ HvA) as HsA.
  pose proof (sqrt_lt_R0 _ HvB) as HsB.
  set (P := sqrt (A * i) * sqrt (B * i)).
  assert (HP : 0 < P) by now apply Rmult_lt_0_compat.
  assert (HPP : P * P = (A * i) * (B * i)).
  { unfold P.
    replace (sqrt (A * i) * sqrt (B * i) * (sqrt (A * i) * sqrt (B * i)))
      with ((sqrt (A * i) * sqrt (A * i)) * (sqrt (B * i) * sqrt (B * i)))
      by ring.
    rewrite !sqrt_sqrt by lra. reflexivity. }
  assert (Hcc : (s * i) * (s * i) <= P * P).
  { rewrite HPP.
    replace (s * i * (s * i)) with ((s * s) * (i * i)) by ring.
    replace (A * i * (B * i)) with ((A * B) * (i * i)) by ring.
    apply Rmult_le_compat_r; [| exact Hcs].
    pose proof (Rle_0_sqr i) as H0. unfold Rsqr in H0. exact H0. }
  fold P. set (c := s * i) in *. clearbody c.
  assert (Habs : Rabs c <= P).
  { rewrite <- (Rabs_pos_eq P) by lra.
    apply Rsqr_le_abs_0. unfold Rsqr. exact Hcc. }
  assert (Hc : - P <= c <= P).
  { unfold Rabs in Habs. destruct (Rcase_abs c); lra. }
  assert (Hq : 0 < / P) by now apply Rinv_0_lt_compat.
  split.
  - replace (-1) with (- P * / P) by (field; lra).
    apply Rmult_le_compat_r; lra.
  - replace 1 with (P * / P) by (field; lra).
    apply Rmult_le_compat_r; lra.
Qed.

Lemma valid_pairs_lengths (a b : list float) :
  length (map fst (valid_pairs a b)) = length (map snd (valid_pairs a b)).
Proof. now rewrite !length_map. Qed.

(** The coefficient of the exact model is undefined or in [-1, 1]. *)
Lemma pearson_range (a b : list float) : unit_or_nan (pearson a b).
Proof.
  unfold pearson.
  destruct (Req_dec_T _ 0) as [| Hvx]; [exact I |].
  destruct (Req_dec_T _ 0) as [| Hvy]; [exact I |].
  cbn. apply quotient_range; try assumption.
  apply valid_pairs_lengths.
Qed.

(** Two points: no variance on a side gives NaN, otherwise the points
    lie on a line and the coefficient is 1 or -1. *)
Lemma pearson_two_points (x1 x2 y1 y2 : R) :
  pearson [Num x1; Num x2] [Num y1; Num y2] =
  if Req_dec_T x1 x2 then NaN
  else if Req_dec_T y1 y2 then NaN
  else if Rlt_dec 0 ((x2 - x1) * (y2 - y1)) then Num 1 else Num (-1).
Proof.
  unfold pearson. cbn [valid_pairs combine flat_map app map fst snd].
  assert (Hvar : forall u v, variance [u; v] = (u - v) * (u - v) / 2).
  { intros u v. unfold variance, covariance, deviations, mean, dot, total.
    cbn. field. }
  assert (Hcov : covariance [x1; x2] [y1; y2] = (x1 - x2) * (y1 - y2) / 2).
  { unfold covariance, deviations, mean, dot, total. cbn. field. }
  assert (Hzero : forall u v, variance [u; v] = 0 <-> u = v).
  { intros u v. rewrite Hvar. split.
    - intros Hz. assert (Hsq : (u - v) * (u - v) = 0) by lra.
      apply Rsqr_0_uniq in Hsq. lra.
    - intros ->. field. }
  destruct (Req_dec_T (variance [x1; x2]) 0) as [Hx | Hx];
    destruct (Req_dec_T x1 x2) as [Ex | Ex];
    try reflexivity;
    [ exfalso; apply Ex, Hzero, Hx | exfalso; apply Hx, Hzero, Ex | ].
  destruct (Req_dec_T (variance [y1; y2]) 0) as [Hy | Hy];
    destruct (Req_dec_T y1 y2) as [Ey | Ey];
    try reflexivity;
    [ exfalso; apply Ey, Hzero, Hy | exfalso; apply Hy, Hzero, Ey | ].
  unfold std. rewrite <- sqrt_mult_alt.
  2:{ rewrite Hvar. pose proof (Rle_0_sqr (x1 - x2)) as H0.
      unfold Rsqr in H0. lra. }
  rewrite !Hvar, Hcov.
  set (dx := x1 - x2). set (dy := y1 - y2).
  replace ((x2 - x1) * (y2 - y1)) with (dx * dy) by (unfold dx, dy; ring).
  assert (Hdx : dx <> 0) by (unfold dx; lra).
  assert (Hdy : dy <> 0) by (unfold dy; lra).
  replace (dx * dx / 2 * (dy * dy / 2)) with (Rsqr (dx * dy / 2))
    by (unfold Rsqr; field).
  rewrite sqrt_Rsqr_abs.
  assert (Hprod : dx * dy <> 0) by now apply Rmult_integral_contrapositive_currified.
  destruct (Rlt_dec 0 (dx * dy)) as [Hpos | Hneg]; f_equal.
  - rewrite Rabs_pos_eq by lra. field. auto.
  - assert (Hlt : dx * dy < 0) by lra.
    rewrite Rabs_left by lra. field. auto.
Qed.
End PearsonFacts.

Import PearsonModel PearsonFacts Samples.

(** ** The sample frames, run *)

Lemma pearson_one_point (x y : R) : pearson [Num x] [Num y] = NaN.
Proof.
  unfold pearson. cbn [valid_pairs combine flat_map app map fst snd].
  destruct (Req_dec_T (variance [x]) 0) as [| Hv]; [reflexivity |].
  exfalso. apply Hv. apply variance_short. cbn. lia.
Qed.

Ltac decide_reals :=
  repeat match goal with
         | |- context [Req_dec_T ?a ?b] => destruct (Req_dec_T a b); try lra
         | |- context [Rlt_dec ?a ?b] => destruct (Rlt_dec a b); try lra
         end.

Lemma holds_df_single_row :
  holds_columns df_single_row [Num 1]%R [Num 2]%R.
Proof. split; [repeat constructor | split; reflexivity]. Qed.

Lemma holds_df_tie :
  holds_columns df_tie m2_tie btc_tie.
Proof. split; [repeat constructor | split; reflexivity]. Qed.

Lemma compute_df_nan_first :
  compute_lag_correlations df_nan_first 2 = Ok [(1, NaN); (2, Num 1)].
Proof.
  change (compute_lag_correlations df_nan_first 2)
    with (Ok [(1, pearson [Num 1; Num 2]%R [Num 5; Num 5]%R);
              (2, pearson [Num 1; Num 2]%R [Num 5; Num 7]%R)]).
  rewrite !pearson_two_points. decide_reals. reflexivity.
Qed.

Lemma compute_df_tie :
  compute_lag_correlations df_tie 3 = Ok map_tie.
Proof.
  change (compute_lag_correlations df_tie 3)
    with (Ok [(1, pearson [Num 1; Num 2]%R [Num 3; Num 4]%R);
              (2, pearson [Num 1; Num 2]%R [Num 4; Num 5]%R);
              (3, pearson [Num 1]%R [Num 5]%R)]).
  rewrite !pearson_two_points, pearson_one_point. decide_reals. reflexivity.
Qed.

Lemma compute_df_single_row :
  compute_lag_correlations df_single_row 3 = Ok [].
Proof. reflexivity. Qed.

Lemma analyzer_df_nan_first :
  analyzer df_nan_first 2 = Ok ([(1, NaN); (2, Num 1)], 1, NaN).
Proof. unfold analyzer. rewrite compute_df_nan_first. reflexivity. Qed.

Lemma loaded_csv_m2 : loaded_frame csv_m2.
Proof. split; [repeat constructor | reflexivity]. Qed.

Lemma loaded_csv_stock : loaded_frame csv_stock.
Proof. split; [repeat constructor | reflexivity]. Qed.

(** * The claims *)

Section AnalyzerClaims.
Context {F : Type} `{Float64Laws F}.

(** C1. For a frame holding the columns 'close_m2' and 'close_btc' and
    a positive maximum lag, [compute_lag_correlations] returns a map
    that sends every lag [k] of [1..L] whose shifted and joined rows
    (the second series' value at row [t + k] beside the first's at
    row [t], rows with a missing value dropped) are not empty to the
    Pearson coefficient of the two joined columns. *)
Theorem compute_lag_correlations_pearson
    (df : DataFrame F) (m2 btc : list F) (max_lag : Z) :
  holds_columns df m2 btc ->
  1 <= max_lag ->
  exists m,
    compute_lag_correlations df max_lag = Ok m /\
    forall k, 1 <= k <= max_lag ->
      overlap k m2 btc <> [] ->
      dict_get m k = Some (corr (map fst (overlap k m2 btc))
                                (map snd (overlap k m2 btc))).
Proof.
  intros Hcols Hpos.
  destruct (compute_lookup df m2 btc max_lag Hcols) as (m & Hrun & _ & Hget).
  exists m. split; [exact Hrun |].
  intros k Hk Hrows. rewrite Hget by exact Hk.
  destruct (overlap k m2 btc); [contradiction | reflexivity].
Qed.

(** C7. The keys of the Correlation Map lie in [1..L], lag 0 is never
    a key, and a lag of [1..L] is absent exactly when shifting by it
    leaves no shared row. *)
Theorem correlation_map_keys
    (df : DataFrame F) (m2 btc : list F) (max_lag : Z) :
  holds_columns df m2 btc ->
  1 <= max_lag ->
  exists m,
    compute_lag_correlations df max_lag = Ok m /\
    (forall k, In k (keys m) -> 1 <= k <= max_lag) /\
    ~ In 0 (keys m) /\
    (forall k, 1 <= k <= max_lag ->
               (~ In k (keys m) <-> overlap k m2 btc = [])).
Proof.
  intros Hcols Hpos.
  destruct (compute_lookup df m2 btc max_lag Hcols)
    as (m & Hrun & Hkeys & Hget).
  exists m. split; [exact Hrun |]. split; [exact Hkeys |]. split.
  - intros Hk. apply Hkeys in Hk. lia.
  - intros k Hk. rewrite <- dict_get_none, Hget by exact Hk.
    destruct (overlap k m2 btc); split; intros; congruence.
Qed.

Lemma loaded_columns (df : DataFrame F) :
  loaded_frame df -> exists vs, columns df = [("close", vs)].
Proof.
  intros [_ Hnames]. unfold column_names in Hnames.
  destruct (columns df) as [| [n vs] [| c cols]]; try discriminate.
  cbn in Hnames. inversion Hnames; subst. now exists vs.
Qed.

Lemma merged_frame_columns (df_m2 df_stock : DataFrame F) :
  loaded_frame df_m2 -> loaded_frame df_stock ->
  column_names (merged_frame df_m2 df_stock) = ["close_m2"; "close_stock"].
Proof.
  intros Hm2 Hstock.
  destruct (loaded_columns _ Hm2) as (a & Ha).
  destruct (loaded_columns _ Hstock) as (b & Hb).
  unfold merged_frame, merge_inner, rename, column_names.
  cbn [index columns]. rewrite Ha, Hb. reflexivity.
Qed.

Lemma lookup_column_absent (name : string) (cols : list (string * list F)) :
  ~ In name (map fst cols) -> lookup_column name cols = None.
Proof.
  induction cols as [| [n vs] cols IH]; intros Hnot; [reflexivity |].
  cbn in *. destruct (String.eqb_spec n name) as [-> | Hne].
  - exfalso. auto.
  - apply IH. tauto.
Qed.

(** C2. On every merged frame [plot_data] builds, whose columns are
    'close_m2' and 'close_stock', [compute_lag_correlations] with a
    maximum lag of at least 1 raises [KeyError] for 'close_btc', and
    [plot_data] itself ends with that exception instead of a
    Correlation Map. *)
Theorem plot_data_key_error
    (df_m2 df_stock : DataFrame F) (max_lag : Z) :
  loaded_frame df_m2 ->
  loaded_frame df_stock ->
  1 <= max_lag ->
  column_names (merged_frame df_m2 df_stock) = ["close_m2"; "close_stock"] /\
  compute_lag_correlations (merged_frame df_m2 df_stock) max_lag
  = Raise (KeyError (KStr "close_btc")) /\
  plot_data df_m2 df_stock = Raise (KeyError (KStr "close_btc")).
Proof.
  intros Hm2 Hstock Hpos.
  pose proof (merged_frame_columns _ _ Hm2 Hstock) as Hnames.
  assert (Habsent : lookup_column "close_btc"
                      (columns (merged_frame df_m2 df_stock)) = None).
  { apply lookup_column_absent. unfold column_names in Hnames.
    rewrite Hnames. cbn. intros [Hc | [Hc | []]]; discriminate. }
  assert (Hraise : forall L, 1 <= L ->
            compute_lag_correlations (merged_frame df_m2 df_stock) L
            = Raise (KeyError (KStr "close_btc"))).
  { intros L HL. unfold compute_lag_correlations.
    rewrite range_cons by lia. cbn [for_each].
    now rewrite lag_body_key_error. }
  split; [exact Hnames |]. split; [now apply Hraise |].
  unfold plot_data, analyzer. rewrite Hraise by (unfold MAX_LAG; lia).
  reflexivity.
Qed.

(** C3, as the code has it.  The undefined coefficients are left out
    of the selection unless one comes first in scan order: when the
    first coefficient of the map is a number, the optimal coefficient
    is a number of the map that no coefficient exceeds; when the
    first coefficient is NaN, that entry is the result. *)
Theorem optimal_coefficient_unless_nan_first
    (df : DataFrame F) (max_lag : Z) (k0 : Z) (c0 : F) (rest : dict F) :
  compute_lag_correlations df max_lag = Ok ((k0, c0) :: rest) ->
  exists k v,
    analyzer df max_lag = Ok ((k0, c0) :: rest, k, v) /\
    (isna c0 = false -> selects_max_number ((k0, c0) :: rest) v) /\
    (isna c0 = true -> k = k0 /\ v = c0).
Proof.
  intros Hrun.
  exists (fst (best_entry (k0, c0) rest)), (snd (best_entry (k0, c0) rest)).
  split; [now apply analyzer_selects |]. split.
  - intros Hnum.
    destruct (best_entry_split rest [] (k0, c0) [] Hnum)
      as (l1 & l2 & Heq & Hv & Hbefore & Hafter).
    { intros e []. }
    { intros e []. }
    cbn [app] in Heq. split; [exact Hv |]. split.
    + exists (fst (best_entry (k0, c0) rest)).
      rewrite <- surjective_pairing. apply best_entry_in.
    + intros k c Hin Hc. rewrite Heq in Hin. apply in_app_or in Hin.
      destruct Hin as [Hin | [Heq' | Hin]].
      * apply fgt_asym. now apply (Hbefore (k, c)).
      * rewrite Heq'. cbn [snd]. apply fgt_irrefl.
      * now apply (Hafter (k, c)).
  - intros Hnan. now rewrite best_entry_nan_first.
Qed.

(** C4, as the code has it.  When no lag of [1..L] leaves a shared
    row the Correlation Map is empty, and selecting the optimum
    raises the [ValueError] of [max] on an empty iterable. *)
Theorem empty_map_raises_value_error
    (df : DataFrame F) (m2 btc : list F) (max_lag : Z) :
  holds_columns df m2 btc ->
  (forall k, 1 <= k <= max_lag -> overlap k m2 btc = []) ->
  compute_lag_correlations df max_lag = Ok [] /\
  analyzer df max_lag = Raise (ValueError max_empty_msg).
Proof.
  intros Hcols Hnone.
  assert (Hrun : compute_lag_correlations df max_lag = Ok []).
  { rewrite (compute_closed_form df m2 btc max_lag Hcols). f_equal.
    assert (Hall : forall k, In k (range 1 (max_lag + 1)) ->
                             lag_entry m2 btc k = []).
    { intros k Hk. apply in_range in Hk. unfold lag_entry.
      now rewrite Hnone by lia. }
    induction (range 1 (max_lag + 1)) as [| k ks IH]; [reflexivity |].
    cbn [flat_map]. rewrite Hall by now left.
    apply IH. intros j Hj. apply Hall. now right. }
  split; [exact Hrun | now apply analyzer_empty].
Qed.

(** C5, as the code has it.  For a maximum lag below 1 the loop of
    [compute_lag_correlations] has nothing to iterate over: the call
    returns the empty map without raising, whatever the frame, and
    the selection that follows raises the [ValueError] of [max] on an
    empty iterable. *)
Theorem non_positive_max_lag_empty_map (df : DataFrame F) (max_lag : Z) :
  max_lag <= 0 ->
  compute_lag_correlations df max_lag = Ok [] /\
  analyzer df max_lag = Raise (ValueError max_empty_msg).
Proof.
  intros Hle.
  assert (Hrun : compute_lag_correlations df max_lag = Ok []).
  { unfold compute_lag_correlations. now rewrite range_nil by lia. }
  split; [exact Hrun |]. unfold analyzer. now rewrite Hrun.
Qed.

Lemma sorted_app_lt (l1 l2 : list Z) (k k' : Z) :
  StronglySorted Z.lt (l1 ++ k :: l2) -> In k' l2 -> k < k'.
Proof.
  induction l1 as [| j l1 IH]; cbn; intros Hs Hin.
  - inversion Hs as [| ? ? _ Hall]; subst.
    rewrite Forall_forall in Hall. now apply Hall.
  - inversion Hs; subst. now apply IH.
Qed.

(** C6, as the code has it.  On a Correlation Map whose first
    coefficient is a number, the analysis returns the maximum number
    of the map, and the returned lag is the smallest of the lags whose
    coefficient ties with that maximum. *)
Theorem optimal_lag_smallest_among_ties
    (df : DataFrame F) (max_lag : Z) (k0 : Z) (c0 : F) (rest : dict F) :
  compute_lag_correlations df max_lag = Ok ((k0, c0) :: rest) ->
  isna c0 = false ->
  exists k v,
    analyzer df max_lag = Ok ((k0, c0) :: rest, k, v) /\
    In (k, v) ((k0, c0) :: rest) /\
    selects_max_number ((k0, c0) :: rest) v /\
    (forall k' c', In (k', c') ((k0, c0) :: rest) -> ftie c' v -> k <= k') /\
    (forall mx, selects_max_number ((k0, c0) :: rest) mx ->
       ftie v mx /\
       forall k' c', In (k', c') ((k0, c0) :: rest) -> ftie c' mx -> k <= k').
Proof.
  intros Hrun Hc0.
  set (m := (k0, c0) :: rest) in *.
  set (r := best_entry (k0, c0) rest).
  assert (Hin : In r m) by apply best_entry_in.
  destruct (compute_invariant df max_lag _ Hrun) as [Hsorted _].
  destruct (best_entry_split rest [] (k0, c0) [] Hc0)
    as (l1 & l2 & Heq & Hv & Hbefore & Hafter).
  { intros e []. }
  { intros e []. }
  cbn [app] in Heq. fold r in Heq, Hv, Hbefore, Hafter. fold m in Heq.
  assert (Hmaxv : forall k' c', In (k', c') m -> isna c' = false ->
                                fgt c' (snd r) = false).
  { intros k' c' Hin' Hc'. rewrite Heq in Hin'. apply in_app_or in Hin'.
    destruct Hin' as [Hin' | [Heq' | Hin']].
    - apply fgt_asym. now apply (Hbefore (k', c')).
    - rewrite Heq'. cbn [snd]. apply fgt_irrefl.
    - now apply (Hafter (k', c')). }
  assert (Hties : forall k' c', In (k', c') m ->
                                ftie c' (snd r) -> fst r <= k').
  { intros k' c' Hin' (Hc' & _ & Hcv & Hvc).
    rewrite Heq in Hin'. apply in_app_or in Hin'.
    destruct Hin' as [Hin' | [Heq' | Hin']].
    - specialize (Hbefore (k', c') Hin' Hc'). cbn [snd] in Hbefore.
      congruence.
    - rewrite Heq'. cbn. lia.
    - rewrite Heq in Hsorted. unfold keys in Hsorted.
      rewrite map_app in Hsorted. cbn [map] in Hsorted.
      apply Z.lt_le_incl.
      apply (sorted_app_lt _ _ _ _ Hsorted).
      change k' with (fst (k', c')). now apply in_map. }
  exists (fst r), (snd r). split; [now apply analyzer_selects |].
  split; [now rewrite <- surjective_pairing |].
  split.
  { split; [exact Hv |]. split; [| exact Hmaxv].
    exists (fst r). now rewrite <- surjective_pairing. }
  split; [exact Hties |].
  intros mx (Hmx & [kx Hkx] & Hmax).
  assert (Hvm : fgt (snd r) mx = false).
  { destruct r as [kr vr]. now apply (Hmax kr vr). }
  assert (Hmv : fgt mx (snd r) = false) by now apply (Hmaxv kx mx).
  split; [unfold ftie; auto |].
  intros k' c' Hin' (Hc' & _ & Hcm & Hmc).
  apply (Hties k' c' Hin'). unfold ftie.
  split; [exact Hc' |]. split; [exact Hv |]. split.
  - now apply (Hmaxv k' c').
  - destruct (fgt (snd r) c') eqn:E; [| reflexivity].
    destruct (fgt_cotrans (snd r) mx c' Hv Hmx Hc' E); congruence.
Qed.

End AnalyzerClaims.

Section StoreClaims.
Context {F : Type} `{Float64 F}.

(** C8. Two analyses of the same frame with the same maximum lag, one
    after the other in one store, show the caller the same map, lag
    and coefficient (or the same exception); the outcome is the value
    of the pure function of the frame's contents and the lag, and
    every object the store held before, the frame included, is
    unchanged after each call. *)
Theorem analyzer_repeatable_without_side_effects
    (h : heap F) (df_ref : ref) (df : DataFrame F) (max_lag : Z) :
  nth_error h df_ref = Some (OFrame df) ->
  let first := analyzer_st df_ref max_lag h in
  let second := analyzer_st df_ref max_lag (snd first) in
  observe second = observe first /\
  observe first = analyzer df max_lag /\
  preserved h (snd first) /\
  preserved h (snd second).
Proof.
  intros Hdf first second.
  destruct (analyzer_st_run h df_ref df max_lag Hdf) as [Hobs Hkeep].
  fold first in Hobs, Hkeep.
  assert (Hdf' : nth_error (snd first) df_ref = Some (OFrame df))
    by now apply Hkeep.
  destruct (analyzer_st_run (snd first) df_ref df max_lag Hdf')
    as [Hobs' Hkeep'].
  fold second in Hobs', Hkeep'.
  split; [congruence |]. split; [exact Hobs |]. split; [exact Hkeep |].
  eapply preserved_trans; eassumption.
Qed.

End StoreClaims.


(** C9. Every coefficient stored in the Correlation Map is undefined
    (NaN) or lies in [-1, 1]. *)
Theorem coefficients_in_unit_interval
    (df : DataFrame float) (max_lag : Z) (m : dict float) :
  compute_lag_correlations df max_lag = Ok m ->
  forall k c, In (k, c) m -> unit_or_nan c.
Proof.
  intros Hrun k c Hin.
  destruct (compute_invariant df max_lag m Hrun) as [_ Hvals].
  destruct (Hvals k c Hin) as (_ & a & b & ->).
  apply pearson_range.
Qed.

Lemma present_is_num (x : float) : isna x = false -> exists r, x = Num r.
Proof. destruct x as [| r]; [discriminate | now exists r]. Qed.

Lemma variance_two_points (u v : R) : (variance [u; v] = 0 <-> u = v)%R.
Proof.
  assert (Hvar : (variance [u; v] = (u - v) * (u - v) / 2)%R).
  { unfold variance, covariance, deviations, mean, dot, total. cbn. field. }
  rewrite Hvar. split.
  - intros Hz. assert (Hsq : ((u - v) * (u - v) = 0)%R) by lra.
    apply Rsqr_0_uniq in Hsq. lra.
  - intros ->. field.
Qed.

(** C10. A lag of [1..L] at which the two series share exactly two rows
    gets an entry in the Correlation Map, computed without an
    exception: NaN when a side of the two rows has no variance,
    otherwise 1 when the two rows rise or fall together and -1 when
    they move against each other. *)
Theorem two_shared_rows_entry
    (df : DataFrame float) (m2 btc : list float) (max_lag k : Z) :
  holds_columns df m2 btc ->
  1 <= k <= max_lag ->
  length (overlap k m2 btc) = 2%nat ->
  exists m c x1 y1 x2 y2,
    overlap k m2 btc = [(Num x1, Num y1); (Num x2, Num y2)] /\
    compute_lag_correlations df max_lag = Ok m /\
    dict_get m k = Some c /\
    (variance [x1; x2] = 0%R \/ variance [y1; y2] = 0%R -> c = NaN) /\
    (variance [x1; x2] <> 0%R -> variance [y1; y2] <> 0%R ->
     ((0 < (x2 - x1) * (y2 - y1))%R /\ c = Num 1) \/
     (((x2 - x1) * (y2 - y1) < 0)%R /\ c = Num (-1))).
Proof.
  intros Hcols Hk Hlen.
  destruct (compute_lookup df m2 btc max_lag Hcols) as (m & Hrun & _ & Hget).
  specialize (Hget k Hk).
  destruct (overlap k m2 btc) as [| [a1 b1] [| [a2 b2] [| r rows]]] eqn:E;
    try discriminate.
  assert (H1 : In (a1, b1) (overlap k m2 btc)) by (rewrite E; now left).
  assert (H2 : In (a2, b2) (overlap k m2 btc))
    by (rewrite E; right; now left).
  apply overlap_present in H1, H2.
  destruct H1 as [Ha1 Hb1], H2 as [Ha2 Hb2].
  apply present_is_num in Ha1, Hb1, Ha2, Hb2.
  destruct Ha1 as [x1 ->], Hb1 as [y1 ->], Ha2 as [x2 ->], Hb2 as [y2 ->].
  exists m, (pearson [Num x1; Num x2] [Num y1; Num y2]), x1, y1, x2, y2.
  split; [reflexivity |]. split; [exact Hrun |]. split; [exact Hget |].
  rewrite pearson_two_points, !variance_two_points.
  destruct (Req_dec_T x1 x2) as [Ex | Ex].
  { split; [reflexivity | contradiction]. }
  destruct (Req_dec_T y1 y2) as [Ey | Ey].
  { split; [reflexivity | contradiction]. }
  split; [intros [? | ?]; contradiction |]. intros _ _.
  assert (Hprod : ((x2 - x1) * (y2 - y1) <> 0)%R).
  { apply Rmult_integral_contrapositive_currified; lra. }
  destruct (Rlt_dec 0 ((x2 - x1) * (y2 - y1))) as [Hpos | Hneg].
  - left. split; [exact Hpos | reflexivity].
  - right. split; [lra | reflexivity].
Qed.

(** ** The claims on the sample frames *)

(** C1 on [df_tie] with a maximum lag of 3. *)
Lemma compute_lag_correlations_pearson_witness :
  holds_columns df_tie m2_tie btc_tie /\
  exists m,
    compute_lag_correlations df_tie 3 = Ok m /\
    forall k, 1 <= k <= 3 ->
      overlap k m2_tie btc_tie <> [] ->
      dict_get m k = Some (corr (map fst (overlap k m2_tie btc_tie))
                                (map snd (overlap k m2_tie btc_tie))).
Proof.
  split; [exact holds_df_tie |].
  apply (compute_lag_correlations_pearson df_tie m2_tie btc_tie 3 holds_df_tie).
  lia.
Defined.

(** C2 on the two loaded sample frames. *)
Lemma plot_data_key_error_witness :
  loaded_frame csv_m2 /\ loaded_frame csv_stock /\
  column_names (merged_frame csv_m2 csv_stock) = ["close_m2"; "close_stock"] /\
  compute_lag_correlations (merged_frame csv_m2 csv_stock) 180
  = Raise (KeyError (KStr "close_btc")) /\
  plot_data csv_m2 csv_stock = Raise (KeyError (KStr "close_btc")).
Proof.
  split; [exact loaded_csv_m2 |]. split; [exact loaded_csv_stock |].
  apply (plot_data_key_error csv_m2 csv_stock 180
           loaded_csv_m2 loaded_csv_stock).
  lia.
Defined.

(** C3, the claim as stated, fails on [df_nan_first]: the map holds a
    NaN and a number, and the analysis returns lag 1 with NaN. *)
Lemma nan_first_is_selected :
  analyzer df_nan_first 2 = Ok ([(1, NaN); (2, Num 1)], 1, NaN) /\
  isna NaN = true /\ isna (Num 1) = false /\
  ~ selects_max_number [(1, NaN); (2, Num 1)] NaN.
Proof.
  split; [exact analyzer_df_nan_first |].
  split; [reflexivity |]. split; [reflexivity |].
  intros [Hnum _]. discriminate.
Qed.

(** C3 as amended, on [df_tie], whose first coefficient is a number. *)
Lemma optimal_coefficient_unless_nan_first_witness :
  compute_lag_correlations df_tie 3 = Ok map_tie /\
  exists k v,
    analyzer df_tie 3 = Ok (map_tie, k, v) /\
    (isna (Num 1) = false -> selects_max_number map_tie v) /\
    (isna (Num 1) = true -> k = 1 /\ v = Num 1).
Proof.
  split; [exact compute_df_tie |].
  exact (optimal_coefficient_unless_nan_first df_tie 3 1 (Num 1)
           [(2, Num 1); (3, NaN)] compute_df_tie).
Defined.

Lemma overlap_single_row (k : Z) :
  1 <= k <= 3 -> overlap k [Num 1] [Num 2] = [].
Proof.
  intros Hk. unfold overlap. cbn [length seq flat_map nth_error Nat.add].
  destruct (Z.to_nat k) as [| n] eqn:E; [lia |].
  cbn. now destruct n.
Qed.

(** C4, the claim as stated, fails on [df_single_row]: the map is empty
    and the caller gets the [ValueError] of [max]. *)
Lemma empty_map_is_not_signalled :
  compute_lag_correlations df_single_row 3 = Ok [] /\
  analyzer df_single_row 3 = Raise (ValueError max_empty_msg) /\
  ~ signals_distinct_error (analyzer df_single_row 3).
Proof.
  split; [exact compute_df_single_row |]. split; [reflexivity |].
  intros (e & He & _ & Hsel).
  change (analyzer df_single_row 3)
    with (@Raise (dict float * Z * float) (ValueError max_empty_msg)) in He.
  inversion He; subst. apply Hsel. reflexivity.
Qed.

(** C4 as amended, on [df_single_row]. *)
Lemma empty_map_raises_value_error_witness :
  holds_columns df_single_row [Num 1] [Num 2] /\
  compute_lag_correlations df_single_row 3 = Ok [] /\
  analyzer df_single_row 3 = Raise (ValueError max_empty_msg).
Proof.
  split; [exact holds_df_single_row |].
  exact (empty_map_raises_value_error df_single_row [Num 1] [Num 2] 3
           holds_df_single_row overlap_single_row).
Defined.

(** C5, the claim as stated, fails for a maximum lag of 0: the call
    returns the empty map, and what the selection then raises is the
    failure of [max] on an empty iterable. *)
Lemma zero_max_lag_is_not_signalled :
  compute_lag_correlations df_nan_first 0 = Ok [] /\
  ~ signals_distinct_error (compute_lag_correlations df_nan_first 0) /\
  ~ signals_distinct_error (analyzer df_nan_first 0).
Proof.
  split; [reflexivity |]. split.
  - intros (e & He & _). discriminate.
  - intros (e & He & _ & Hsel).
    change (analyzer df_nan_first 0)
      with (@Raise (dict float * Z * float) (ValueError max_empty_msg)) in He.
    inversion He; subst. apply Hsel. reflexivity.
Qed.

(** C5 as amended, for a maximum lag of 0. *)
Lemma non_positive_max_lag_empty_map_witness :
  0 <= 0 /\
  compute_lag_correlations df_nan_first 0 = Ok [] /\
  analyzer df_nan_first 0 = Raise (ValueError max_empty_msg).
Proof.
  split; [lia |].
  apply (non_positive_max_lag_empty_map df_nan_first 0). lia.
Defined.

Lemma compute_df_nan_then_tie :
  compute_lag_correlations MoreSamples.df_nan_then_tie 3
  = Ok MoreSamples.map_nan_then_tie.
Proof.
  change (compute_lag_correlations MoreSamples.df_nan_then_tie 3)
    with (Ok [(1, pearson [Num 1; Num 2]%R [Num 5; Num 5]%R);
              (2, pearson [Num 1; Num 2]%R [Num 5; Num 6]%R);
              (3, pearson [Num 1; Num 2]%R [Num 6; Num 7]%R)]).
  rewrite !pearson_two_points. decide_reals. reflexivity.
Qed.

(** C6, the claim as stated, fails on [df_nan_then_tie]: lags 2 and 3
    tie for the maximum number 1 of the map, and the analysis returns
    lag 1, whose coefficient is NaN and ties with nothing. *)
Lemma nan_first_breaks_tie_break :
  analyzer MoreSamples.df_nan_then_tie 3
  = Ok (MoreSamples.map_nan_then_tie, 1, NaN) /\
  selects_max_number MoreSamples.map_nan_then_tie (Num 1) /\
  In (2, Num 1) MoreSamples.map_nan_then_tie /\
  In (3, Num 1) MoreSamples.map_nan_then_tie /\
  ~ (exists v, In (1, v) MoreSamples.map_nan_then_tie /\ ftie v (Num 1)).
Proof.
  split.
  { unfold analyzer. rewrite compute_df_nan_then_tie. reflexivity. }
  split.
  { split; [reflexivity |]. split; [exists 2; right; now left |].
    intros k c Hin Hc. cbn [MoreSamples.map_nan_then_tie In] in Hin.
    destruct Hin as [Heq | [Heq | [Heq | Hfalse]]];
      [inversion Heq; subst; discriminate | | | contradiction];
      inversion Heq; subst; cbn; destruct (Rlt_dec 1 1);
      [lra | reflexivity | lra | reflexivity]. }
  split; [right; now left |]. split; [right; right; now left |].
  intros (v & Hin & Htie). cbn [MoreSamples.map_nan_then_tie In] in Hin.
  destruct Hin as [Heq | [Heq | [Heq | Hfalse]]];
    [| inversion Heq | inversion Heq | contradiction].
  inversion Heq; subst. destruct Htie as [Hnan _]. discriminate.
Qed.

(** C6 as amended, on [df_tie]: the first coefficient is a number,
    lags 1 and 2 tie at the maximum 1, and lag 3 holds a NaN. *)
Lemma optimal_lag_smallest_among_ties_witness :
  compute_lag_correlations df_tie 3 = Ok map_tie /\
  selects_max_number map_tie (Num 1) /\
  exists k v,
    analyzer df_tie 3 = Ok (map_tie, k, v) /\
    In (k, v) map_tie /\
    selects_max_number map_tie v /\
    (forall k' c', In (k', c') map_tie -> ftie c' v -> k <= k') /\
    (forall mx, selects_max_number map_tie mx ->
       ftie v mx /\
       forall k' c', In (k', c') map_tie -> ftie c' mx -> k <= k').
Proof.
  split; [exact compute_df_tie |]. split.
  { split; [reflexivity |]. split; [exists 1; now left |].
    intros k c Hin Hc. cbn [map_tie In] in Hin.
    destruct Hin as [Heq | [Heq | [Heq | Hfalse]]];
      [| | inversion Heq; subst; discriminate | contradiction];
      inversion Heq; subst; cbn; destruct (Rlt_dec 1 1);
      [lra | reflexivity | lra | reflexivity]. }
  exact (optimal_lag_smallest_among_ties df_tie 3 1 (Num 1)
           [(2, Num 1); (3, NaN)] compute_df_tie eq_refl).
Defined.

(** C7 on [df_tie] with a maximum lag of 3. *)
Lemma correlation_map_keys_witness :
  holds_columns df_tie m2_tie btc_tie /\
  exists m,
    compute_lag_correlations df_tie 3 = Ok m /\
    (forall k, In k (keys m) -> 1 <= k <= 3) /\
    ~ In 0 (keys m) /\
    (forall k, 1 <= k <= 3 ->
               (~ In k (keys m) <-> overlap k m2_tie btc_tie = [])).
Proof.
  split; [exact holds_df_tie |].
  apply (correlation_map_keys df_tie m2_tie btc_tie 3 holds_df_tie).
  lia.
Defined.

(** C8 on a store that holds [df_tie]. *)
Lemma analyzer_repeatable_without_side_effects_witness :
  let h := [OFrame df_tie] in
  let first := analyzer_st 0%nat 3 h in
  let second := analyzer_st 0%nat 3 (snd first) in
  observe second = observe first /\
  observe first = analyzer df_tie 3 /\
  preserved h (snd first) /\
  preserved h (snd second).
Proof.
  exact (analyzer_repeatable_without_side_effects
           [OFrame df_tie] 0%nat df_tie 3 eq_refl).
Defined.

(** C9 on the entry of lag 2 in the map of [df_tie]. *)
Lemma coefficients_in_unit_interval_witness :
  compute_lag_correlations df_tie 3 = Ok map_tie /\
  In (2, Num 1) map_tie /\
  unit_or_nan (Num 1).
Proof.
  assert (Hin : In (2, Num 1) map_tie) by (right; left; reflexivity).
  split; [exact compute_df_tie |]. split; [exact Hin |].
  exact (coefficients_in_unit_interval df_tie 3 map_tie compute_df_tie
           2 (Num 1) Hin).
Defined.

(** C10 on [df_tie] at lag 1, where the rows (1,3) and (2,4) are
    shared. *)
Lemma two_shared_rows_entry_witness :
  length (overlap 1 m2_tie btc_tie) = 2%nat /\
  exists m c x1 y1 x2 y2,
    overlap 1 m2_tie btc_tie = [(Num x1, Num y1); (Num x2, Num y2)] /\
    compute_lag_correlations df_tie 3 = Ok m /\
    dict_get m 1 = Some c /\
    (variance [x1; x2] = 0%R \/ variance [y1; y2] = 0%R -> c = NaN) /\
    (variance [x1; x2] <> 0%R -> variance [y1; y2] <> 0%R ->
     ((0 < (x2 - x1) * (y2 - y1))%R /\ c = Num 1) \/
     (((x2 - x1) * (y2 - y1) < 0)%R /\ c = Num (-1))).
Proof.
  split; [reflexivity |].
  apply (two_shared_rows_entry df_tie m2_tie btc_tie 3 1 holds_df_tie);
    [lia | reflexivity].
Defined.

(** * Further properties of the code *)

(** ** How [compute_lag_correlations] and the analysis end *)

Section ComputeOutcome.
Context {F : Type} `{Float64 F}.

(** With both columns found the loop body cannot raise. *)
Lemma lag_body_returns (df : DataFrame F) (m2 btc : list F) (d : dict F) (lag : Z) :
  lookup_column "close_btc" (columns df) = Some btc ->
  lookup_column "close_m2" (columns df) = Some m2 ->
  exists d', lag_body df d lag = Ok d'.
Proof.
  intros Hbtc Hm2. unfold lag_body, getitem. rewrite Hbtc, Hm2. cbn [bind].
  destruct (negb (empty _)); [| eauto].
  unfold dropna, concat_axis1, shift.
  cbn [index columns s_index s_name s_values map fst snd lookup_column].
  cbn. eauto.
Qed.

Lemma lag_body_key_error_m2 (df : DataFrame F) (btc : list F) (d : dict F) (lag : Z) :
  lookup_column "close_btc" (columns df) = Some btc ->
  lookup_column "close_m2" (columns df) = None ->
  lag_body df d lag = Raise (KeyError (KStr "close_m2")).
Proof.
  intros Hbtc Hm2. unfold lag_body, getitem. now rewrite Hbtc, Hm2.
Qed.

Lemma for_each_returns (df : DataFrame F) (m2 btc : list F) (ks : list Z) :
  lookup_column "close_btc" (columns df) = Some btc ->
  lookup_column "close_m2" (columns df) = Some m2 ->
  forall d, exists d', for_each (lag_body df) d ks = Ok d'.
Proof.
  intros Hbtc Hm2. induction ks as [| k ks IH]; intros d; [cbn; eauto |].
  cbn [for_each].
  destruct (lag_body_returns df m2 btc d k Hbtc Hm2) as (d1 & ->).
  cbn [bind]. apply IH.
Qed.

Lemma compute_missing_btc (df : DataFrame F) (max_lag : Z) :
  1 <= max_lag ->
  lookup_column "close_btc" (columns df) = None ->
  compute_lag_correlations df max_lag = Raise (KeyError (KStr "close_btc")).
Proof.
  intros Hpos Hbtc. unfold compute_lag_correlations.
  rewrite range_cons by lia. cbn [for_each].
  now rewrite lag_body_key_error.
Qed.

Lemma compute_missing_m2 (df : DataFrame F) (btc : list F) (max_lag : Z) :
  1 <= max_lag ->
  lookup_column "close_btc" (columns df) = Some btc ->
  lookup_column "close_m2" (columns df) = None ->
  compute_lag_correlations df max_lag = Raise (KeyError (KStr "close_m2")).
Proof.
  intros Hpos Hbtc Hm2. unfold compute_lag_correlations.
  rewrite range_cons by lia. cbn [for_each].
  now rewrite (lag_body_key_error_m2 df btc).
Qed.

Lemma compute_returns (df : DataFrame F) (m2 btc : list F) (max_lag : Z) :
  lookup_column "close_btc" (columns df) = Some btc ->
  lookup_column "close_m2" (columns df) = Some m2 ->
  exists m, compute_lag_correlations df max_lag = Ok m.
Proof.
  intros Hbtc Hm2. apply (for_each_returns df m2 btc _ Hbtc Hm2).
Qed.

Lemma compute_small_lag (df : DataFrame F) (max_lag : Z) :
  max_lag < 1 -> compute_lag_correlations df max_lag = Ok [].
Proof.
  intros Hlt. unfold compute_lag_correlations. now rewrite range_nil by lia.
Qed.

(** What a raised exception tells: the lag range was not empty and a
    column was missing, 'close_btc' being looked up first. *)
Lemma compute_raise_cases (df : DataFrame F) (max_lag : Z) (e : exn) :
  compute_lag_correlations df max_lag = Raise e ->
  1 <= max_lag /\
  ((lookup_column "close_btc" (columns df) = None /\
    e = KeyError (KStr "close_btc")) \/
   (lookup_column "close_btc" (columns df) <> None /\
    lookup_column "close_m2" (columns df) = None /\
    e = KeyError (KStr "close_m2"))).
Proof.
  intros Hrun.
  destruct (Z.lt_ge_cases max_lag 1) as [Hlt | Hge].
  { rewrite compute_small_lag in Hrun by exact Hlt. discriminate. }
  split; [lia |].
  destruct (lookup_column "close_btc" (columns df)) as [btc |] eqn:Hbtc.
  - destruct (lookup_column "close_m2" (columns df)) as [m2 |] eqn:Hm2.
    + destruct (compute_returns df m2 btc max_lag Hbtc Hm2) as (m & Hm).
      congruence.
    + rewrite (compute_missing_m2 df btc) in Hrun by (assumption || lia).
      right. repeat split; [discriminate | congruence].
  - rewrite compute_missing_btc in Hrun by (assumption || lia).
    left. split; [reflexivity | congruence].
Qed.

(** X1. [compute_lag_correlations] raises exactly when the lag range is
    not empty and a column it reads is missing; the exception is the
    [KeyError] of 'close_btc' when that column is missing (whether
    or not 'close_m2' is there), and of 'close_m2' otherwise. *)
Theorem compute_raises_iff (df : DataFrame F) (max_lag : Z) (e : exn) :
  compute_lag_correlations df max_lag = Raise e <->
  1 <= max_lag /\
  ((lookup_column "close_btc" (columns df) = None /\
    e = KeyError (KStr "close_btc")) \/
   (lookup_column "close_btc" (columns df) <> None /\
    lookup_column "close_m2" (columns df) = None /\
    e = KeyError (KStr "close_m2"))).
Proof.
  split; [apply compute_raise_cases |].
  intros (Hpos & [(Hbtc & ->) | (Hbtc & Hm2 & ->)]).
  - now apply compute_missing_btc.
  - destruct (lookup_column "close_btc" (columns df)) as [btc |] eqn:E;
      [| contradiction].
    now apply (compute_missing_m2 df btc).
Qed.

(** X5. The analysis of lines 139-141 ends in one of four ways: with a
    map of [compute_lag_correlations], one of its keys and the value
    stored under it; with the [KeyError] of a missing column; or with
    the [ValueError] of [max] on an empty map.  The selection itself
    never fails a lookup or a comparison. *)
Theorem analyzer_outcome (df : DataFrame F) (max_lag : Z) :
  match analyzer df max_lag with
  | Ok (m, k, v) =>
      compute_lag_correlations df max_lag = Ok m /\
      dict_get m k = Some v /\ 1 <= k <= max_lag
  | Raise e =>
      e = KeyError (KStr "close_btc") \/
      e = KeyError (KStr "close_m2") \/
      (e = ValueError max_empty_msg /\
       compute_lag_correlations df max_lag = Ok [])
  end.
Proof.
  destruct (compute_lag_correlations df max_lag) as [m | e] eqn:Hrun.
  - destruct m as [| first rest].
    + rewrite (analyzer_empty df max_lag Hrun). auto.
    + rewrite (analyzer_selects df max_lag first rest Hrun).
      destruct (compute_invariant df max_lag _ Hrun) as [Hsorted Hvals].
      pose proof (best_entry_in first rest) as Hin.
      destruct (best_entry first rest) as [k v]. cbn [fst snd].
      split; [reflexivity |]. split.
      * apply dict_get_in; [now apply sorted_nodup | exact Hin].
      * now apply (Hvals k v).
  - unfold analyzer. rewrite Hrun. cbn [bind].
    apply compute_raise_cases in Hrun.
    destruct Hrun as (_ & [(_ & ->) | (_ & _ & ->)]); auto.
Qed.

End ComputeOutcome.

(** ** The shape of the Correlation Map *)

Section MapShape.
Context {F : Type} `{Float64Laws F}.

Lemma range_app (lo mid hi : Z) :
  lo <= mid <= hi -> range lo hi = range lo mid ++ range mid hi.
Proof.
  intros Hle. unfold range.
  replace (Z.to_nat (hi - lo))
    with (Z.to_nat (mid - lo) + Z.to_nat (hi - mid))%nat by lia.
  rewrite seq_app, map_app. f_equal.
  cbn [Nat.add]. rewrite <- (Nat.add_0_r (Z.to_nat (mid - lo))) at 1.
  rewrite Nat.add_0_r.
  replace (seq (Z.to_nat (mid - lo)) (Z.to_nat (hi - mid)))
    with (map (fun i => (Z.to_nat (mid - lo) + i)%nat) (seq 0 (Z.to_nat (hi - mid)))).
  - rewrite map_map. apply map_ext. intros i. lia.
  - generalize (Z.to_nat (mid - lo)) as s. generalize (Z.to_nat (hi - mid)) as n.
    clear. intros n s.
    assert (Hgen : forall b, map (fun i => (s + i)%nat) (seq b n) = seq (s + b) n).
    { induction n as [| n IH]; intros b; [reflexivity |].
      cbn [seq map]. rewrite IH. f_equal. f_equal. lia. }
    rewrite Hgen. f_equal. lia.
Qed.

Lemma in_entries (a b : list F) (ks : list Z) (k : Z) (c : F) :
  In (k, c) (flat_map (lag_entry a b) ks) ->
  In k ks /\ overlap k a b <> [] /\ c = rows_corr (overlap k a b).
Proof.
  rewrite in_flat_map. intros (j & Hj & Hin). unfold lag_entry in Hin.
  destruct (overlap j a b) eqn:E; [contradiction |].
  destruct Hin as [Heq | []]. inversion Heq; subst.
  split; [exact Hj |]. rewrite E. split; [discriminate | reflexivity].
Qed.

Lemma overlap_nonempty_bound (k : Z) (a b : list F) :
  0 <= k -> overlap k a b <> [] -> k < Z.of_nat (length b).
Proof.
  intros Hk Hne.
  destruct (overlap k a b) as [| r rows] eqn:E; [contradiction |].
  assert (Hin : In r (overlap k a b)) by (rewrite E; now left).
  unfold overlap in Hin. apply in_flat_map in Hin.
  destruct Hin as (t & _ & Hin).
  destruct (nth_error a t); [| contradiction].
  destruct (nth_error b (t + Z.to_nat k)) eqn:Eb; [| contradiction].
  assert ((t + Z.to_nat k < length b)%nat)
    by (apply nth_error_Some; congruence).
  lia.
Qed.

Lemma sorted_bounded_length (l : list Z) :
  StronglySorted Z.lt l ->
  forall lo hi, lo <= hi -> (forall k, In k l -> lo <= k < hi) ->
  Z.of_nat (length l) <= hi - lo.
Proof.
  induction 1 as [| h l Hs IH Hall]; intros lo hi Hle Hin; cbn [length].
  - lia.
  - destruct (Hin h (or_introl eq_refl)) as [Hlo Hhi].
    rewrite Forall_forall in Hall.
    specialize (IH (h + 1) hi ltac:(lia)).
    assert (Z.of_nat (length l) <= hi - (h + 1)).
    { apply IH. intros k Hk. specialize (Hall k Hk).
      specialize (Hin k (or_intror Hk)). lia. }
    lia.
Qed.

(** X2. Raising the maximum lag only appends: the map for a larger
    maximum lag begins with the map for the smaller one, entry for
    entry, and the added keys are the lags beyond the smaller
    maximum. *)
Theorem larger_max_lag_extends_map
    (df : DataFrame F) (m2 btc : list F) (max_lag max_lag' : Z) :
  holds_columns df m2 btc ->
  max_lag <= max_lag' ->
  exists m ext,
    compute_lag_correlations df max_lag = Ok m /\
    compute_lag_correlations df max_lag' = Ok (m ++ ext) /\
    forall k, In k (keys ext) -> max_lag < k <= max_lag'.
Proof.
  intros Hcols Hle.
  rewrite !(compute_closed_form df m2 btc _ Hcols).
  destruct (Z.le_gt_cases 0 max_lag) as [Hpos | Hneg].
  - rewrite (range_app 1 (max_lag + 1) (max_lag' + 1)) by lia.
    rewrite flat_map_app.
    eexists. eexists. split; [reflexivity |]. split; [reflexivity |].
    intros k Hk. apply keys_entries, in_range in Hk. lia.
  - rewrite (range_nil 1 (max_lag + 1)) by lia.
    exists [], (flat_map (lag_entry m2 btc) (range 1 (max_lag' + 1))).
    split; [reflexivity |]. split; [reflexivity |].
    intros k Hk. apply keys_entries, in_range in Hk. lia.
Qed.

(** X3. A frame of [n] rows gives no entry for a lag of [n] or more:
    every key is below the number of rows, the keys ascend strictly,
    and the map has fewer entries than the frame has rows (none for an
    empty frame). *)
Theorem keys_below_row_count
    (df : DataFrame F) (m2 btc : list F) (max_lag : Z) :
  holds_columns df m2 btc ->
  exists m,
    compute_lag_correlations df max_lag = Ok m /\
    StronglySorted Z.lt (keys m) /\
    (forall k, In k (keys m) -> 1 <= k < Z.of_nat (length (index df))) /\
    Z.of_nat (length m) <= Z.max 0 (Z.of_nat (length (index df)) - 1).
Proof.
  intros Hcols.
  pose proof (compute_closed_form df m2 btc max_lag Hcols) as Hrun.
  destruct (compute_invariant df max_lag _ Hrun) as [Hsorted _].
  eexists. split; [exact Hrun |]. split; [exact Hsorted |].
  assert (Hlen : length btc = length (index df)).
  { destruct Hcols as (Hwf & _ & Hbtc).
    exact (lookup_column_length df _ _ Hwf Hbtc). }
  assert (Hkeys : forall k,
             In k (keys (flat_map (lag_entry m2 btc) (range 1 (max_lag + 1)))) ->
             1 <= k < Z.of_nat (length (index df))).
  { intros k Hk. unfold keys in Hk. apply in_map_iff in Hk.
    destruct Hk as ([k' c] & <- & Hin). cbn [fst].
    apply in_entries in Hin. destruct Hin as (Hr & Hne & _).
    apply in_range in Hr.
    apply overlap_nonempty_bound in Hne; lia. }
  split; [exact Hkeys |].
  set (m := flat_map (lag_entry m2 btc) (range 1 (max_lag + 1))) in *.
  replace (length m) with (length (keys m)) by apply length_map.
  destruct (Z.le_gt_cases 1 (Z.of_nat (length (index df)))) as [Hn | Hn].
  - pose proof (sorted_bounded_length _ Hsorted 1
                  (Z.of_nat (length (index df))) Hn Hkeys). lia.
  - destruct (keys m) as [| k ks] eqn:E; [cbn; lia |].
    specialize (Hkeys k (or_introl eq_refl)). lia.
Qed.

(** X4. [corr] is only ever called on two columns of equal, non-zero
    length without a NaN: every stored coefficient is the [corr] of the
    two sides of a non-empty list of rows whose values are all
    present. *)
Theorem corr_called_on_present_rows
    (df : DataFrame F) (m2 btc : list F) (max_lag : Z) :
  holds_columns df m2 btc ->
  exists m,
    compute_lag_correlations df max_lag = Ok m /\
    forall k c, In (k, c) m ->
      exists rows,
        rows <> [] /\
        c = corr (map fst rows) (map snd rows) /\
        length (map fst rows) = length (map snd rows) /\
        Forall (fun x => isna x = false) (map fst rows) /\
        Forall (fun y => isna y = false) (map snd rows).
Proof.
  intros Hcols. eexists.
  split; [exact (compute_closed_form df m2 btc max_lag Hcols) |].
  intros k c Hin. apply in_entries in Hin. destruct Hin as (_ & Hne & ->).
  exists (overlap k m2 btc). split; [exact Hne |]. split; [reflexivity |].
  split; [now rewrite !length_map |].
  split; apply Forall_forall; intros v Hv; apply in_map_iff in Hv;
    destruct Hv as ([x y] & <- & Hxy); apply overlap_present in Hxy; tauto.
Qed.

Lemma list_comp_entries (m : dict F) (es : list (Z * F)) :
  (forall e, In e es -> dict_get m (fst e) = Some (snd e)) ->
  list_comp (dict_getitem m) (map fst es) = Ok (map snd es).
Proof.
  induction es as [| e es IH]; intros Hget; [reflexivity |].
  cbn [map list_comp]. unfold dict_getitem at 1.
  rewrite (Hget e (or_introl eq_refl)). cbn [bind].
  rewrite IH by (intros; apply Hget; now right). reflexivity.
Qed.

(** X6. Lines 143-144 on a map of [compute_lag_correlations]: reading
    every key back raises nothing, and the lags and values handed to
    the plot are the entries of the map in ascending lag order. *)
Theorem plotted_points_are_entries
    (df : DataFrame F) (max_lag : Z) (m : dict F) :
  compute_lag_correlations df max_lag = Ok m ->
  exists lags corr_values,
    plotted_points m = Ok (lags, corr_values) /\
    combine lags corr_values = m /\
    StronglySorted Z.lt lags.
Proof.
  intros Hrun.
  destruct (compute_invariant df max_lag m Hrun) as [Hsorted _].
  exists (keys m), (map snd m). unfold plotted_points, keys in *. cbv zeta.
  rewrite (list_comp_entries m m).
  - cbn [bind]. split; [reflexivity |]. split; [| exact Hsorted].
    clear. induction m as [| [k c] m IH]; cbn; congruence.
  - intros [k c] Hin. apply dict_get_in; [now apply sorted_nodup | exact Hin].
Qed.

End MapShape.

(** ** The loader and the date range *)

Section LoaderFacts.
Context {F : Type} `{Float64 F}.

Lemma insert_row_perm (ts : list Z) (i : nat) (sorted : list nat) :
  Permutation (insert_row ts i sorted) (i :: sorted).
Proof.
  induction sorted as [| j rest IH]; cbn; [reflexivity |].
  destruct (nth i ts 0 <? nth j ts 0); [reflexivity |].
  rewrite IH. apply perm_swap.
Qed.

Lemma argsort_perm (ts : list Z) :
  Permutation (argsort ts) (seq 0 (length ts)).
Proof.
  unfold argsort.
  assert (Hgen : forall l acc,
             Permutation (fold_left (fun sorted i => insert_row ts i sorted) l acc)
                         (l ++ acc)).
  { induction l as [| i l IH]; intros acc; cbn; [reflexivity |].
    rewrite IH. rewrite insert_row_perm.
    symmetry. apply Permutation_middle. }
  rewrite Hgen. now rewrite app_nil_r.
Qed.

Lemma insert_row_sorted (ts : list Z) (i : nat) (sorted : list nat) :
  Sorted Z.le (map (fun j => nth j ts 0) sorted) ->
  Sorted Z.le (map (fun j => nth j ts 0) (insert_row ts i sorted)).
Proof.
  induction sorted as [| j rest IH]; intros Hs; cbn.
  - repeat constructor.
  - destruct (Z.ltb_spec (nth i ts 0) (nth j ts 0)) as [Hlt | Hge].
    + cbn. constructor; [exact Hs |]. constructor. lia.
    + cbn in *. inversion Hs as [| ? ? Hrest Hhd]; subst.
      constructor; [now apply IH |].
      destruct rest as [| j' rest']; cbn.
      * constructor. lia.
      * destruct (nth i ts 0 <? nth j' ts 0); cbn; constructor.
        -- lia.
        -- inversion Hhd; subst. assumption.
Qed.

Lemma argsort_sorted (ts : list Z) :
  Sorted Z.le (map (fun j => nth j ts 0) (argsort ts)).
Proof.
  unfold argsort.
  assert (Hgen : forall l acc,
             Sorted Z.le (map (fun j => nth j ts 0) acc) ->
             Sorted Z.le (map (fun j => nth j ts 0)
                            (fold_left (fun sorted i => insert_row ts i sorted) l acc))).
  { induction l as [| i l IH]; intros acc Hacc; cbn; [exact Hacc |].
    apply IH. now apply insert_row_sorted. }
  apply Hgen. constructor.
Qed.

Lemma take_rows_length {A : Type} (d : A) (pos : list nat) (xs : list A) :
  length (take_rows d pos xs) = length pos.
Proof. unfold take_rows. apply length_map. Qed.

Lemma map_nth_seq {A : Type} (d : A) (xs : list A) :
  map (fun i => nth i xs d) (seq 0 (length xs)) = xs.
Proof.
  induction xs as [| x xs IH]; [reflexivity |].
  cbn [length seq map nth]. f_equal.
  rewrite <- seq_shift, map_map. exact IH.
Qed.

Lemma lookup_column_map (g : list F -> list F) (name : string)
    (cols : list (string * list F)) :
  lookup_column name (map (fun c => (fst c, g (snd c))) cols)
  = option_map g (lookup_column name cols).
Proof.
  induction cols as [| [n vs] cols IH]; [reflexivity |].
  cbn. destruct (String.eqb n name); [reflexivity | exact IH].
Qed.

Lemma combine_take_rows {A B : Type} (da : A) (db : B) (pos : list nat)
    (xs : list A) (ys : list B) :
  combine (take_rows da pos xs) (take_rows db pos ys)
  = map (fun i => (nth i xs da, nth i ys db)) pos.
Proof.
  unfold take_rows. induction pos as [| i pos IH]; cbn; congruence.
Qed.

Lemma combine_nth_seq {A B : Type} (da : A) (db : B) (xs : list A) (ys : list B) :
  length ys = length xs ->
  map (fun i => (nth i xs da, nth i ys db)) (seq 0 (length xs)) = combine xs ys.
Proof.
  revert ys. induction xs as [| x xs IH]; intros [| y ys] Hlen;
    try discriminate; [reflexivity |].
  cbn [length seq map nth combine]. f_equal.
  rewrite <- seq_shift, map_map. apply IH. cbn in Hlen. lia.
Qed.

Lemma select_filter {A : Type} (g : A -> bool) (l : list A) :
  select (map g l) l = filter g l.
Proof.
  induction l as [| x l IH]; cbn; [reflexivity |].
  destruct (g x); now rewrite IH.
Qed.

Lemma combine_select {A B : Type} (g : A -> bool) (xs : list A) (ys : list B) :
  combine (select (map g xs) xs) (select (map g xs) ys)
  = filter (fun r => g (fst r)) (combine xs ys).
Proof.
  revert ys. induction xs as [| x xs IH]; intros [| y ys]; cbn;
    try reflexivity.
  - destruct (g x); cbn; [reflexivity |].
    now destruct (select (map g xs) xs).
  - destruct (g x); cbn; now rewrite IH.
Qed.

Lemma select_mask_length {A B : Type} (g : A -> bool) (xs : list A) (ys : list B) :
  length ys = length xs ->
  length (select (map g xs) ys) = length (select (map g xs) xs).
Proof.
  revert ys. induction xs as [| x xs IH]; intros [| y ys] Hlen;
    try discriminate; [reflexivity |].
  cbn in *. destruct (g x); cbn; rewrite IH by lia; reflexivity.
Qed.

Lemma filter_perm {A : Type} (g : A -> bool) (l l' : list A) :
  Permutation l l' -> Permutation (filter g l) (filter g l').
Proof.
  induction 1 as [| x l l' Hp IH | x y l | l l' l'' Hp1 IH1 Hp2 IH2]; cbn.
  - constructor.
  - destruct (g x); [now constructor | exact IH].
  - destruct (g x), (g y); try reflexivity. apply perm_swap.
  - now transitivity (filter g l').
Qed.

Lemma filter_sorted (g : Z -> bool) (l : list Z) :
  Sorted Z.le l -> Sorted Z.le (filter g l).
Proof.
  intros Hs. apply Sorted_StronglySorted in Hs; [| exact Z.le_trans].
  apply StronglySorted_Sorted.
  induction Hs as [| x l Hs IH Hall]; cbn; [constructor |].
  destruct (g x); [| exact IH].
  constructor; [exact IH |].
  rewrite Forall_forall in *. intros y Hy. apply filter_In in Hy.
  apply Hall. tauto.
Qed.

(** The loader on a table that has the value column. *)
Lemma load_shape (p : Parsed F) (value_col : string) (vals : list F) :
  lookup_column value_col (fields p) = Some vals ->
  load_and_filter_csv p value_col
  = Ok (mkFrame (take_rows 0 (argsort (dates p)) (dates p))
                [(value_col, take_rows nan (argsort (dates p)) vals)]).
Proof.
  intros Hcol. unfold load_and_filter_csv, getitem_list, sort_set_index.
  cbn [columns index]. rewrite lookup_column_map, Hcol. reflexivity.
Qed.


Lemma load_rows (p : Parsed F) (value_col : string) (vals : list F) :
  wf_parsed p ->
  lookup_column value_col (fields p) = Some vals ->
  exists idx vs,
    load_and_filter_csv p value_col = Ok (mkFrame idx [(value_col, vs)]) /\
    length vs = length idx /\
    Sorted Z.le idx /\
    Permutation (combine idx vs) (combine (dates p) vals).
Proof.
  intros Hwf Hcol. eexists. eexists.
  split; [exact (load_shape p value_col vals Hcol) |].
  split; [now rewrite !take_rows_length |].
  split; [apply argsort_sorted |].
  rewrite combine_take_rows.
  assert (Hlen : length vals = length (dates p)).
  { unfold wf_parsed in Hwf. revert Hcol.
    induction (fields p) as [| [n ws] cols IH]; cbn; [discriminate |].
    pose proof (Forall_inv Hwf) as Hc. apply Forall_inv_tail in Hwf.
    destruct (String.eqb n value_col).
    - intros Heq. inversion Heq; subst. exact Hc.
    - now apply IH. }
  rewrite <- (combine_nth_seq 0 nan (dates p) vals Hlen).
  apply Permutation_map, argsort_perm.
Qed.

(** X7. [load_and_filter_csv] on a table holding the value column
    returns a frame with that single column, indexed by the dates in
    ascending order, whose rows are the rows of the table, each date
    still beside its value. *)
Theorem load_and_filter_csv_sorts
    (p : Parsed F) (value_col : string) (vals : list F) :
  wf_parsed p ->
  lookup_column value_col (fields p) = Some vals ->
  exists idx vs,
    load_and_filter_csv p value_col = Ok (mkFrame idx [(value_col, vs)]) /\
    length vs = length idx /\
    Sorted Z.le idx /\
    Permutation (combine idx vs) (combine (dates p) vals).
Proof.
  intros Hwf Hcol.
  destruct (load_rows p value_col vals Hwf Hcol) as (idx & vs & Hrows).
  now exists idx, vs.
Qed.

(** X8. The frame [plot_data] works with, the loaded table cut to the
    date range: its dates ascend and all lie in the range, and its rows
    are the rows of the table whose date lies in the range. *)
Theorem loaded_window_rows
    (p : Parsed F) (vals : list F) (start_date end_date : Z) :
  wf_parsed p ->
  lookup_column "close" (fields p) = Some vals ->
  exists df idx vs,
    load_and_filter_csv p "close" = Ok df /\
    loc_slice df start_date end_date = mkFrame idx [("close", vs)] /\
    length vs = length idx /\
    Sorted Z.le idx /\
    Forall (fun t => start_date <= t <= end_date) idx /\
    Permutation
      (combine idx vs)
      (filter (fun r => (start_date <=? fst r) && (fst r <=? end_date))
              (combine (dates p) vals)).
Proof.
  intros Hwf Hcol.
  destruct (load_rows p "close" vals Hwf Hcol)
    as (idx & vs & Hload & Hlen & Hsorted & Hperm).
  set (g := fun t => (start_date <=? t) && (t <=? end_date)).
  exists (mkFrame idx [("close", vs)]), (select (map g idx) idx),
    (select (map g idx) vs).
  split; [exact Hload |]. split; [reflexivity |].
  split; [now apply select_mask_length |].
  rewrite select_filter.
  split; [now apply filter_sorted |]. split.
  - apply Forall_forall. intros t Ht. apply filter_In in Ht.
    destruct Ht as [_ Ht]. unfold g in Ht. apply andb_true_iff in Ht.
    destruct Ht as [H1 H2]. apply Z.leb_le in H1, H2. lia.
  - rewrite <- select_filter, combine_select.
    apply (filter_perm (fun r => g (fst r))). exact Hperm.
Qed.




End LoaderFacts.

(** ** The inner join of [plot_data] (lines 135-137) *)

Section MergeFacts.
Context {F : Type} `{Float64 F}.

Lemma in_join_positions (li ri : list Z) (i j : nat) :
  In (i, j) (join_positions li ri) <->
  (i < length li)%nat /\ (j < length ri)%nat /\ nth j ri 0 = nth i li 0.
Proof.
  unfold join_positions. rewrite in_flat_map. split.
  - intros (i' & Hi & Hin). apply in_map_iff in Hin.
    destruct Hin as (j' & Heq & Hj). inversion Heq; subst.
    apply filter_In in Hj. destruct Hj as [Hj Hm].
    apply in_seq in Hi, Hj. apply Z.eqb_eq in Hm. repeat split; lia.
  - intros (Hi & Hj & Hm). exists i. split; [apply in_seq; lia |].
    apply in_map. apply filter_In. split; [apply in_seq; lia |].
    now apply Z.eqb_eq.
Qed.

Lemma merge_inner_wf (left right : DataFrame F) :
  wf_frame (merge_inner left right).
Proof.
  unfold wf_frame, merge_inner. cbn [index columns].
  rewrite take_rows_length.
  apply Forall_app. split; apply Forall_forall; intros c Hc;
    apply in_map_iff in Hc; destruct Hc as (c' & <- & _); cbn [snd];
    rewrite take_rows_length, !length_map; reflexivity.
Qed.

(** X10. The merged frame is well formed, and its index holds exactly
    the dates present in both frames. *)
Theorem merge_inner_common_dates (left right : DataFrame F) (t : Z) :
  wf_frame (merge_inner left right) /\
  (In t (index (merge_inner left right)) <->
   In t (index left) /\ In t (index right)).
Proof.
  split; [apply merge_inner_wf |].
  unfold merge_inner, take_rows. cbn [index]. rewrite map_map, in_map_iff.
  split.
  - intros ([i j] & <- & Hin). cbn [fst].
    apply in_join_positions in Hin. destruct Hin as (Hi & Hj & Hm).
    split; [now apply nth_In |]. rewrite <- Hm. now apply nth_In.
  - intros [Hl Hr].
    destruct (In_nth _ _ 0 Hl) as (i & Hi & Hti).
    destruct (In_nth _ _ 0 Hr) as (j & Hj & Htj).
    exists (i, j). split; [exact Hti |].
    apply in_join_positions. repeat split; [assumption .. | congruence].
Qed.

Lemma nth_error_map_nth {A B : Type} (g : A -> B) (l : list A) (n : nat) (y : B) :
  nth_error (map g l) n = Some y -> exists x, nth_error l n = Some x /\ g x = y.
Proof.
  rewrite nth_error_map. destruct (nth_error l n) as [x |]; [| discriminate].
  cbn. intros Heq. inversion Heq. eauto.
Qed.

Lemma nth_error_of_nth {A : Type} (d : A) (l : list A) (i : nat) :
  (i < length l)%nat -> nth_error l i = Some (nth i l d).
Proof. intros Hi. now apply nth_error_nth'. Qed.

Lemma merged_frame_shape (df_m2 df_stock : DataFrame F) (a b : list F) :
  columns df_m2 = [("close", a)] ->
  columns df_stock = [("close", b)] ->
  let pos := join_positions (index df_m2) (index df_stock) in
  merged_frame df_m2 df_stock
  = mkFrame (map (fun p => nth (fst p) (index df_m2) 0) pos)
            [("close_m2", map (fun p => nth (fst p) a nan) pos);
             ("close_stock", map (fun p => nth (snd p) b nan) pos)].
Proof.
  intros Ha Hb pos. unfold merged_frame, merge_inner, rename, take_rows.
  cbn [index columns]. rewrite Ha, Hb. cbn. rewrite !map_map. reflexivity.
Qed.

(** X11. Each row of the frame [plot_data] merges pairs a money-supply
    value and a stock value that stand beside one and the same date in
    their frames, and every such pair of rows gives a row of the merged
    frame. *)
Theorem merged_rows_share_date
    (df_m2 df_stock : DataFrame F) (a b : list F) (t : Z) (x y : F) :
  columns df_m2 = [("close", a)] ->
  columns df_stock = [("close", b)] ->
  length a = length (index df_m2) ->
  length b = length (index df_stock) ->
  exists m2 stock,
    columns (merged_frame df_m2 df_stock)
    = [("close_m2", m2); ("close_stock", stock)] /\
    ((exists n,
        nth_error (index (merged_frame df_m2 df_stock)) n = Some t /\
        nth_error m2 n = Some x /\ nth_error stock n = Some y)
     <->
     (exists i j,
        nth_error (index df_m2) i = Some t /\ nth_error a i = Some x /\
        nth_error (index df_stock) j = Some t /\ nth_error b j = Some y)).
Proof.
  intros Ha Hb Hla Hlb.
  rewrite (merged_frame_shape df_m2 df_stock a b Ha Hb). cbn [columns index].
  eexists. eexists. split; [reflexivity |]. split.
  - intros (n & Ht & Hx & Hy).
    apply nth_error_map_nth in Ht, Hx, Hy.
    destruct Ht as ([i j] & Hp & Ht), Hx as (p1 & Hp1 & Hx), Hy as (p2 & Hp2 & Hy).
    rewrite Hp in Hp1, Hp2. inversion Hp1; inversion Hp2; subst p1 p2.
    cbn [fst snd] in *.
    apply nth_error_In, in_join_positions in Hp.
    destruct Hp as (Hi & Hj & Hm).
    exists i, j. subst t x y.
    rewrite <- Hm at 2.
    repeat split; apply nth_error_of_nth; lia.
  - intros (i & j & Hti & Hx & Htj & Hy).
    assert (Hi : (i < length (index df_m2))%nat)
      by (apply nth_error_Some; congruence).
    assert (Hj : (j < length (index df_stock))%nat)
      by (apply nth_error_Some; congruence).
    rewrite (nth_error_of_nth 0) in Hti, Htj by assumption.
    rewrite (nth_error_of_nth nan) in Hx, Hy by lia.
    inversion Hti; inversion Htj; inversion Hx; inversion Hy.
    assert (Hin : In (i, j) (join_positions (index df_m2) (index df_stock))).
    { apply in_join_positions. repeat split; [assumption .. | congruence]. }
    destruct (In_nth_error _ _ Hin) as (n & Hn).
    exists n. rewrite !nth_error_map, Hn. cbn. repeat split; congruence.
Qed.

Lemma flat_map_nth_seq {A B : Type} (d : A) (g : A -> list B) (l : list A) :
  flat_map (fun i => g (nth i l d)) (seq 0 (length l)) = flat_map g l.
Proof.
  induction l as [| x l IH]; [reflexivity |].
  cbn [length]. rewrite flat_map_seq_S. cbn [nth flat_map]. now rewrite IH.
Qed.

(** The merged index, date by date of the left index: each date as
    often as it occurs on the right. *)
Lemma merge_inner_index (left right : DataFrame F) :
  index (merge_inner left right)
  = flat_map
      (fun t => map (fun _ => t)
                  (filter (fun j => Z.eqb (nth j (index right) 0) t)
                          (seq 0 (length (index right)))))
      (index left).
Proof.
  unfold merge_inner, take_rows, join_positions. cbn [index].
  rewrite map_map.
  rewrite <- (flat_map_nth_seq 0
                (fun t => map (fun _ => t)
                            (filter (fun j => Z.eqb (nth j (index right) 0) t)
                                    (seq 0 (length (index right)))))
                (index left)).
  generalize (seq 0 (length (index left))) as rows.
  induction rows as [| i rows IH]; [reflexivity |].
  cbn [flat_map]. rewrite map_app, IH. f_equal.
  rewrite map_map. reflexivity.
Qed.

Lemma matches_unique (ri : list Z) (t : Z) :
  NoDup ri ->
  (length (filter (fun j => Z.eqb (nth j ri 0%Z) t) (seq 0 (length ri))) <= 1)%nat.
Proof.
  intros Hnd.
  assert (Hone : forall l, NoDup l ->
             (forall j, In j l -> (j < length ri)%nat /\ nth j ri 0 = t) ->
             (length l <= 1)%nat).
  { intros [| j1 [| j2 l]] Hl Hall; cbn; try lia.
    exfalso. inversion Hl as [| ? ? Hnotin _]; subst. apply Hnotin.
    destruct (Hall j1 (or_introl eq_refl)) as [H1 E1].
    destruct (Hall j2 (or_intror (or_introl eq_refl))) as [H2 E2].
    left. symmetry.
    apply (proj1 (NoDup_nth ri 0) Hnd j1 j2 H1 H2). congruence. }
  apply Hone.
  - apply NoDup_filter, seq_NoDup.
  - intros j Hj. apply filter_In in Hj. destruct Hj as [Hj Hm].
    apply in_seq in Hj. apply Z.eqb_eq in Hm. split; [lia | exact Hm].
Qed.

Lemma strongly_sorted_app (R : Z -> Z -> Prop) (l1 l2 : list Z) :
  StronglySorted R l1 -> StronglySorted R l2 ->
  (forall x y, In x l1 -> In y l2 -> R x y) ->
  StronglySorted R (l1 ++ l2).
Proof.
  induction 1 as [| x l1 Hs IH Hall]; intros H2 Hcross; [exact H2 |].
  cbn [app]. constructor.
  - apply IH; [exact H2 |]. intros u v Hu Hv. apply Hcross; [now right | exact Hv].
  - apply Forall_app. split; [exact Hall |].
    apply Forall_forall. intros y Hy. apply Hcross; [now left | exact Hy].
Qed.

Lemma sorted_blocks (R : Z -> Z -> Prop) (block : Z -> list Z) (l : list Z) :
  (forall t, StronglySorted R (block t)) ->
  (forall t y, In y (block t) -> y = t) ->
  StronglySorted R l -> StronglySorted R (flat_map block l).
Proof.
  intros Hsorted Hblock. induction 1 as [| t l Hs IH Hall];
    cbn [flat_map]; [constructor |].
  apply strongly_sorted_app; [apply Hsorted | exact IH |].
  intros x y Hx Hy. apply Hblock in Hx. subst x.
  apply in_flat_map in Hy. destruct Hy as (u & Hu & Hy).
  apply Hblock in Hy. subst y.
  rewrite Forall_forall in Hall. now apply Hall.
Qed.

Lemma date_block_const (right : DataFrame F) (t y : Z) :
  In y (date_block right t) -> y = t.
Proof.
  unfold date_block. rewrite in_map_iff. now intros (_ & <- & _).
Qed.

(** X12. Joining two frames whose dates ascend gives a frame whose
    dates ascend: the merged frame of [plot_data] is in date order. *)
Theorem merge_inner_keeps_ascending (left right : DataFrame F) :
  Sorted Z.le (index left) ->
  Sorted Z.le (index right) ->
  Sorted Z.le (index (merge_inner left right)).
Proof.
  intros Hs _. rewrite merge_inner_index.
  apply Sorted_StronglySorted in Hs; [| exact Z.le_trans].
  apply StronglySorted_Sorted.
  apply (sorted_blocks Z.le (date_block right));
    [| apply date_block_const | exact Hs].
  intros t. pose proof (date_block_const right t) as Ht.
  induction (date_block right t) as [| y b IHb]; constructor.
  - apply IHb. intros z Hz. apply Ht. now right.
  - apply Forall_forall. intros z Hz.
    rewrite (Ht y (or_introl eq_refl)), (Ht z (or_intror Hz)). lia.
Qed.

(** X13. Joining two frames whose dates ascend strictly (no date
    twice) gives a frame whose dates ascend strictly: the join
    introduces no duplicate date. *)
Theorem merge_inner_keeps_dates_unique (left right : DataFrame F) :
  StronglySorted Z.lt (index left) ->
  StronglySorted Z.lt (index right) ->
  StronglySorted Z.lt (index (merge_inner left right)).
Proof.
  intros Hs Hr. rewrite merge_inner_index.
  apply (sorted_blocks Z.lt (date_block right));
    [| apply date_block_const | exact Hs].
  intros t.
  pose proof (matches_unique (index right) t (sorted_nodup _ Hr)) as Hlen.
  unfold date_block.
  destruct (filter _ _) as [| j [| j' js]]; cbn in *;
    [constructor | repeat constructor | lia].
Qed.

End MergeFacts.

(** ** The update check: properties *)

Module UpdaterFacts.
Import Updater.

Lemma write_chunks_trace (cs : list string) :
  write_chunks cs = (writes cs, Returns tt).
Proof.
  unfold writes. induction cs as [| c cs IH]; [reflexivity |].
  cbn [write_chunks filter]. rewrite IH.
  destruct (String.eqb c ""); reflexivity.
Qed.

Lemma save_stream_trace (w : world) :
  open_error w = None ->
  save_stream w
  = (Open NEW_EXE :: writes (chunks w) ++ [Close NEW_EXE],
     match stream_error w with
     | Some text => Raises (Exception text)
     | None => Returns tt
     end).
Proof.
  intros Hopen. unfold save_stream. rewrite Hopen, write_chunks_trace.
  destruct (stream_error w); cbn; rewrite ?app_nil_r; reflexivity.
Qed.

(** How [download_update] ends, by what the outside answers. *)
Lemma download_update_trace (w : world) :
  download_update w =
  match update_error w, open_error w, stream_error w with
  | Some text, _, _ | None, Some text, _ =>
      ([Get UPDATE_URL; Print (String.append "Update failed: " text)],
       Returns tt)
  | None, None, Some text =>
      (Get UPDATE_URL :: Open NEW_EXE :: writes (chunks w)
         ++ [Close NEW_EXE; Print (String.append "Update failed: " text)],
       Returns tt)
  | None, None, None =>
      (Get UPDATE_URL :: Open NEW_EXE :: writes (chunks w)
         ++ [Close NEW_EXE; Print "Update downloaded! Restarting app...";
             System NEW_EXE],
       Raises SystemExit)
  end.
Proof.
  unfold download_update.
  destruct (update_error w) as [e1 |]; [reflexivity |].
  destruct (open_error w) as [e2 |] eqn:Hopen.
  { unfold save_stream. rewrite Hopen. reflexivity. }
  rewrite (save_stream_trace w Hopen).
  destruct (stream_error w) as [e3 |]; cbn;
    rewrite <- ?app_assoc; reflexivity.
Qed.

(** How [check_for_updates] ends, by what the outside answers. *)
Lemma check_for_updates_trace (w : world) :
  check_for_updates w =
  match version_reply w with
  | Fails text =>
      ([Get VERSION_URL;
        Print (String.append "Error checking for updates: " text)],
       Returns tt)
  | Body body =>
      if newer body then
        (Get VERSION_URL :: announce (strip body) :: fst (download_update w),
         snd (download_update w))
      else ([Get VERSION_URL; Print "You're up to date!"], Returns tt)
  end.
Proof.
  unfold check_for_updates, newer.
  destruct (version_reply w) as [body | text]; [| reflexivity].
  destruct (str_gt (strip body) CURRENT_VERSION); [| reflexivity].
  rewrite download_update_trace.
  destruct (update_error w), (open_error w), (stream_error w); reflexivity.
Qed.

Lemma written_app (path : string) (t1 t2 : list event) :
  written path (t1 ++ t2)
  = String.append (written path t1) (written path t2).
Proof.
  induction t1 as [| e t1 IH]; [reflexivity |].
  destruct e; cbn [app written]; try exact IH.
  destruct (String.eqb path0 path); [| exact IH].
  rewrite IH. clear. induction data as [| c d IHd]; cbn; congruence.
Qed.

Lemma append_empty_r (s : string) : String.append s "" = s.
Proof. induction s as [| c s IH]; cbn; congruence. Qed.

Lemma written_writes (cs : list string) :
  written NEW_EXE (writes cs) = received cs.
Proof.
  unfold writes, received. induction cs as [| c cs IH]; [reflexivity |].
  cbn [filter fold_right]. destruct (String.eqb_spec c "") as [-> | Hne].
  - cbn [negb]. exact IH.
  - cbn [negb map written]. rewrite String.eqb_refl, IH. reflexivity.
Qed.

Lemma writes_touch (cs : list string) (e : event) :
  In e (writes cs) -> exists data, e = Write NEW_EXE data.
Proof.
  unfold writes. rewrite in_map_iff. intros (c & <- & _). eauto.
Qed.

(** X14. [check_for_updates] never lets an [Exception] out, whatever
    the network and the file system do: it returns, or it ends the
    process through [sys.exit], which both handlers let pass. *)
Theorem check_for_updates_contains_exceptions (w : world) :
  snd (check_for_updates w) = Returns tt \/
  snd (check_for_updates w) = Raises SystemExit.
Proof.
  rewrite check_for_updates_trace.
  destruct (version_reply w) as [body | text]; [| now left].
  destruct (newer body); [| now left]. cbn [snd].
  rewrite download_update_trace.
  destruct (update_error w), (open_error w), (stream_error w); cbn; auto.
Qed.

Ltac no_such_event H :=
  repeat first
    [ contradiction
    | destruct H as [H | H]; [discriminate |]
    | apply in_app_or in H; destruct H as [H | H];
      [apply writes_touch in H; destruct H as (? & H); discriminate |] ].

Ltac only_announce H :=
  repeat first
    [ contradiction
    | destruct H as [H | H]; [first [discriminate | symmetry; exact H] |]
    | apply in_app_or in H; destruct H as [H | H];
      [apply writes_touch in H; destruct H as (? & H); discriminate |] ].

Lemma download_update_exits (w : world) :
  snd (download_update w) = Raises SystemExit <-> download_succeeds w.
Proof.
  rewrite download_update_trace. unfold download_succeeds.
  destruct (update_error w), (open_error w), (stream_error w); cbn [snd];
    split; try discriminate; try (intros (H1 & H2 & H3); discriminate); auto.
Qed.

Lemma download_update_starts (w : world) :
  In (System NEW_EXE) (fst (download_update w)) <-> download_succeeds w.
Proof.
  rewrite download_update_trace. unfold download_succeeds.
  destruct (update_error w), (open_error w), (stream_error w); cbn [fst];
    split; try (intros (H1 & H2 & H3); discriminate);
    try (intros Hin; exfalso; no_such_event Hin; fail);
    try (intros _; right; right; apply in_or_app; right; right; right;
         now left);
    auto.
Qed.

(** X15. The process is ended, and the downloaded program started,
    exactly when the version request came back with a text that
    compares greater than the current version and every step of the
    download went through. *)
Theorem check_for_updates_exits_iff (w : world) :
  (snd (check_for_updates w) = Raises SystemExit <->
   exists body,
     version_reply w = Body body /\ newer body = true /\
     download_succeeds w) /\
  (In (System NEW_EXE) (fst (check_for_updates w)) <->
   snd (check_for_updates w) = Raises SystemExit).
Proof.
  rewrite check_for_updates_trace.
  destruct (version_reply w) as [body | text].
  2:{ split; split; try discriminate.
      - intros (b & Hb & _). discriminate.
      - intros Hin. no_such_event Hin. }
  destruct (newer body) eqn:Hnew.
  2:{ split; split; try discriminate.
      - intros (b & Hb & Hn & _). inversion Hb; subst. congruence.
      - intros Hin. no_such_event Hin. }
  cbn [fst snd]. rewrite download_update_exits. split; split.
  - intros Hd. now exists body.
  - now intros (b & _ & _ & Hd).
  - intros [H | [H | Hin]]; try discriminate.
    now apply download_update_starts.
  - intros Hd. right. right. now apply download_update_starts.
Qed.

(** X16. Whenever the run opened [new_version.exe], it wrote every
    chunk it received into it, in order, and closed it, whether or not
    the stream broke off. *)
Theorem opened_file_is_written_and_closed (w : world) :
  In (Open NEW_EXE) (fst (check_for_updates w)) ->
  written NEW_EXE (fst (check_for_updates w)) = received (chunks w) /\
  exists before after,
    fst (check_for_updates w)
    = before ++ Open NEW_EXE :: writes (chunks w) ++ Close NEW_EXE :: after.
Proof.
  rewrite check_for_updates_trace.
  destruct (version_reply w) as [body | text];
    [| intros Hin; exfalso; no_such_event Hin].
  destruct (newer body); [| intros Hin; exfalso; no_such_event Hin].
  cbn [fst]. rewrite download_update_trace.
  destruct (update_error w), (open_error w), (stream_error w); cbn [fst];
    intros Hin; try (exfalso; no_such_event Hin; fail); split.
  - cbn [written]. rewrite written_app, written_writes. cbn.
    apply append_empty_r.
  - exists [Get VERSION_URL; announce (strip body); Get UPDATE_URL]. eexists.
    cbn [app]. reflexivity.
  - cbn [written]. rewrite written_app, written_writes. cbn.
    apply append_empty_r.
  - exists [Get VERSION_URL; announce (strip body); Get UPDATE_URL]. eexists.
    cbn [app]. reflexivity.
Qed.

(** X17. The new executable is requested exactly when the version
    request came back with a text that compares greater than the
    current version; in every other run nothing but the version
    request and one printed line happens, and the call returns. *)
Theorem update_requested_iff_newer (w : world) :
  (requests_update (fst (check_for_updates w)) <->
   exists body, version_reply w = Body body /\ newer body = true) /\
  (~ requests_update (fst (check_for_updates w)) ->
   exists line,
     check_for_updates w = ([Get VERSION_URL; Print line], Returns tt)).
Proof.
  unfold requests_update. rewrite check_for_updates_trace.
  destruct (version_reply w) as [body | text].
  2:{ split; [split |].
      - intros Hin. exfalso. no_such_event Hin.
      - intros (b & Hb & _). discriminate.
      - eauto. }
  destruct (newer body) eqn:Hnew.
  2:{ split; [split |].
      - intros Hin. exfalso. no_such_event Hin.
      - intros (b & Hb & Hn). inversion Hb; subst. congruence.
      - eauto. }
  assert (Hreq : In (Get UPDATE_URL) (fst (download_update w))).
  { rewrite download_update_trace.
    destruct (update_error w), (open_error w), (stream_error w); now left. }
  cbn [fst]. split; [split |].
  - intros _. now exists body.
  - intros _. right. right. exact Hreq.
  - intros Hnot. exfalso. apply Hnot. right. right. exact Hreq.
Qed.

(** X18. A download that fails at any step is reported and survived:
    the text of the first failing step (request, then open, then
    stream) is printed after "Update failed: " as the last event, the
    call returns, and the handler of [check_for_updates] is not
    involved. *)
Theorem failed_download_is_reported (w : world) (body text : string) :
  version_reply w = Body body ->
  newer body = true ->
  first_failure w = Some text ->
  exists before,
    check_for_updates w
    = (before ++ [Print (String.append "Update failed: " text)],
       Returns tt) /\
    ~ In (System NEW_EXE) before /\
    forall line, In (Print line) before -> Print line = announce (strip body).
Proof.
  intros Hbody Hnew Hfail. rewrite check_for_updates_trace, Hbody, Hnew.
  rewrite download_update_trace. unfold first_failure in Hfail.
  destruct (update_error w) as [e1 |], (open_error w) as [e2 |],
    (stream_error w) as [e3 |]; inversion Hfail; subst; cbn [fst snd].
  all: try (exists [Get VERSION_URL; announce (strip body); Get UPDATE_URL];
            split; [reflexivity |]; split;
            [intros Hin; no_such_event Hin
            | intros line Hin; only_announce Hin]; fail).
  exists (Get VERSION_URL :: announce (strip body) :: Get UPDATE_URL
          :: Open NEW_EXE :: writes (chunks w) ++ [Close NEW_EXE]).
  split; [| split].
  - cbn [app]. rewrite <- app_assoc. reflexivity.
  - intros Hin. no_such_event Hin.
  - intros line Hin. only_announce Hin.
Qed.

Lemma lstrip_spaces (pre s : string) :
  all_space pre = true -> lstrip (String.append pre s) = lstrip s.
Proof.
  induction pre as [| c pre IH]; cbn; [reflexivity |].
  intros Hsp. apply andb_true_iff in Hsp. destruct Hsp as [Hc Hpre].
  rewrite Hc. now apply IH.
Qed.

Lemma rstrip_all_space (post : string) :
  all_space post = true -> rstrip post = "".
Proof.
  induction post as [| c post IH]; cbn; [reflexivity |].
  intros Hsp. apply andb_true_iff in Hsp. destruct Hsp as [Hc Hpost].
  now rewrite IH, Hc.
Qed.

Lemma rstrip_spaces (s post : string) :
  all_space post = true -> rstrip (String.append s post) = rstrip s.
Proof.
  intros Hsp. induction s as [| c s IH]; cbn.
  - now apply rstrip_all_space.
  - now rewrite IH.
Qed.

Lemma lstrip_all_space (s : string) :
  lstrip s = "" -> all_space s = true.
Proof.
  induction s as [| c s IH]; cbn; [reflexivity |].
  destruct (is_space c); [exact IH | discriminate].
Qed.

Lemma all_space_app (s1 s2 : string) :
  all_space s1 = true -> all_space s2 = true ->
  all_space (String.append s1 s2) = true.
Proof.
  induction s1 as [| c s1 IH]; cbn; [auto |].
  intros H1 H2. apply andb_true_iff in H1. destruct H1 as [Hc H1].
  rewrite Hc. now apply IH.
Qed.

Lemma lstrip_app (s post : string) :
  lstrip s <> "" ->
  lstrip (String.append s post) = String.append (lstrip s) post.
Proof.
  induction s as [| c s IH]; cbn; [contradiction |].
  destruct (is_space c); [exact IH | reflexivity].
Qed.

(** Whitespace around a text does not change what [strip] returns. *)
Lemma strip_surrounded (pre s post : string) :
  all_space pre = true -> all_space post = true ->
  strip (String.append pre (String.append s post)) = strip s.
Proof.
  intros Hpre Hpost. unfold strip. rewrite lstrip_spaces by exact Hpre.
  destruct (lstrip s) as [| c rest] eqn:E.
  - assert (Hs : all_space s = true) by now apply lstrip_all_space.
    assert (Hall : all_space (String.append s post) = true)
      by now apply all_space_app.
    clear E. induction (String.append s post) as [| c t IH]; [reflexivity |].
    cbn in *. apply andb_true_iff in Hall. destruct Hall as [Hc Ht].
    rewrite Hc. now apply IH.
  - rewrite lstrip_app by (rewrite E; discriminate).
    rewrite E. now apply rstrip_spaces.
Qed.

(** X19. Whitespace around the text of the version file changes
    nothing: the run is, event for event, the run on the bare text.  A
    file holding the current version between blanks and line ends is
    reported as up to date. *)
Theorem surrounding_whitespace_is_ignored
    (w : world) (pre s post : string) :
  all_space pre = true ->
  all_space post = true ->
  check_for_updates
    (with_version w (Body (String.append pre (String.append s post))))
  = check_for_updates (with_version w (Body s)) /\
  check_for_updates
    (with_version w
       (Body (String.append pre (String.append CURRENT_VERSION post))))
  = ([Get VERSION_URL; Print "You're up to date!"], Returns tt).
Proof.
  intros Hpre Hpost.
  assert (Hsame : forall t,
             check_for_updates
               (with_version w (Body (String.append pre (String.append t post))))
             = check_for_updates (with_version w (Body t))).
  { intros t. unfold check_for_updates. cbn [version_reply with_version].
    now rewrite strip_surrounded. }
  split; [apply Hsame |]. rewrite Hsame. reflexivity.
Qed.

(** X20. The text is not checked to be a version: any reply whose
    stripped text begins with a character after "1" (a digit from 2
    to 9, a letter, "<", the "4" of a "404: Not Found" page) counts
    as newer, and the executable is requested. *)
Theorem unversioned_text_requests_update
    (w : world) (body : string) (c : ascii) (rest : string) :
  version_reply w = Body body ->
  strip body = String c rest ->
  (49 < nat_of_ascii c)%nat ->
  newer body = true /\ requests_update (fst (check_for_updates w)).
Proof.
  intros Hbody Hstrip Hc.
  assert (Hnew : newer body = true).
  { unfold newer, str_gt, String.ltb. rewrite Hstrip.
    unfold CURRENT_VERSION. cbn [String.compare].
    unfold Ascii.compare.
    replace (N_of_ascii "1") with 49%N by reflexivity.
    assert (Hlt : (49 < N_of_ascii c)%N).
    { unfold nat_of_ascii in Hc. lia. }
    apply N.compare_lt_iff in Hlt. now rewrite Hlt. }
  split; [exact Hnew |].
  unfold requests_update. rewrite check_for_updates_trace, Hbody, Hnew.
  cbn [fst]. right. right. rewrite download_update_trace.
  destruct (update_error w), (open_error w), (stream_error w); now left.
Qed.

(** X16 on a run that opens the file and whose stream breaks off. *)
Lemma opened_file_is_written_and_closed_witness :
  In (Open NEW_EXE) (fst (check_for_updates MoreSamples.world_404)) /\
  written NEW_EXE (fst (check_for_updates MoreSamples.world_404))
  = received (chunks MoreSamples.world_404) /\
  exists before after,
    fst (check_for_updates MoreSamples.world_404)
    = before ++ Open NEW_EXE :: writes (chunks MoreSamples.world_404)
        ++ Close NEW_EXE :: after.
Proof.
  assert (Hin : In (Open NEW_EXE)
                  (fst (check_for_updates MoreSamples.world_404)))
    by (vm_compute; tauto).
  split; [exact Hin |].
  exact (opened_file_is_written_and_closed MoreSamples.world_404 Hin).
Defined.

(** X18 on the same run: the broken stream is the first failure. *)
Lemma failed_download_is_reported_witness :
  exists before,
    check_for_updates MoreSamples.world_404
    = (before ++ [Print "Update failed: connection reset"], Returns tt) /\
    ~ In (System NEW_EXE) before /\
    forall line, In (Print line) before ->
                 Print line = announce (strip "404: Not Found").
Proof.
  exact (failed_download_is_reported MoreSamples.world_404
           "404: Not Found" "connection reset"
           eq_refl eq_refl eq_refl).
Defined.

(** X19 on the current version between a blank and a line end. *)
Lemma surrounding_whitespace_is_ignored_witness :
  check_for_updates
    (with_version MoreSamples.world_newer
       (Body (String.append " "
                (String.append "1.0.1" MoreSamples.line_end))))
  = check_for_updates (with_version MoreSamples.world_newer (Body "1.0.1")) /\
  check_for_updates
    (with_version MoreSamples.world_newer
       (Body (String.append " "
                (String.append CURRENT_VERSION MoreSamples.line_end))))
  = ([Get VERSION_URL; Print "You're up to date!"], Returns tt).
Proof.
  exact (surrounding_whitespace_is_ignored MoreSamples.world_newer
           " " "1.0.1" MoreSamples.line_end eq_refl eq_refl).
Defined.

(** X20 on the text of a "404: Not Found" page. *)
Lemma unversioned_text_requests_update_witness :
  newer "404: Not Found" = true /\
  requests_update (fst (check_for_updates MoreSamples.world_404)).
Proof.
  apply (unversioned_text_requests_update MoreSamples.world_404
           "404: Not Found" "4"%char "04: Not Found" eq_refl eq_refl).
  cbn. lia.
Defined.

End UpdaterFacts.

(** ** The further properties on sample inputs *)

(** X2 on [df_tie], from a maximum lag of 1 to one of 3. *)
Lemma larger_max_lag_extends_map_witness :
  exists m ext,
    compute_lag_correlations df_tie 1 = Ok m /\
    compute_lag_correlations df_tie 3 = Ok (m ++ ext) /\
    forall k, In k (keys ext) -> 1 < k <= 3.
Proof.
  apply (larger_max_lag_extends_map df_tie m2_tie btc_tie 1 3 holds_df_tie).
  lia.
Defined.

(** X3 on [df_tie], a frame of four rows. *)
Lemma keys_below_row_count_witness :
  exists m,
    compute_lag_correlations df_tie 180 = Ok m /\
    StronglySorted Z.lt (keys m) /\
    (forall k, In k (keys m) -> 1 <= k < 4) /\
    Z.of_nat (length m) <= 3.
Proof.
  exact (keys_below_row_count df_tie m2_tie btc_tie 180 holds_df_tie).
Defined.

(** X4 on [df_tie]. *)
Lemma corr_called_on_present_rows_witness :
  exists m,
    compute_lag_correlations df_tie 3 = Ok m /\
    forall k c, In (k, c) m ->
      exists rows,
        rows <> [] /\
        c = corr (map fst rows) (map snd rows) /\
        length (map fst rows) = length (map snd rows) /\
        Forall (fun x => isna x = false) (map fst rows) /\
        Forall (fun y => isna y = false) (map snd rows).
Proof.
  exact (corr_called_on_present_rows df_tie m2_tie btc_tie 3 holds_df_tie).
Defined.

(** X6 on the map of [df_tie]. *)
Lemma plotted_points_are_entries_witness :
  exists lags corr_values,
    plotted_points map_tie = Ok (lags, corr_values) /\
    combine lags corr_values = map_tie /\
    StronglySorted Z.lt lags.
Proof.
  exact (plotted_points_are_entries df_tie 3 map_tie compute_df_tie).
Defined.

Lemma wf_parsed_m2 : wf_parsed MoreSamples.parsed_m2.
Proof. repeat constructor. Qed.

(** X7 on a file whose rows are out of date order. *)
Lemma load_and_filter_csv_sorts_witness :
  exists idx vs,
    load_and_filter_csv MoreSamples.parsed_m2 "close"
    = Ok (mkFrame idx [("close", vs)]) /\
    length vs = length idx /\
    Sorted Z.le idx /\
    Permutation (combine idx vs)
      (combine [3; 1; 2] [Num 12; Num 10; Num 11]).
Proof.
  exact (load_and_filter_csv_sorts MoreSamples.parsed_m2 "close"
           [Num 12; Num 10; Num 11] wf_parsed_m2 eq_refl).
Defined.

(** X8 on the same file and the dates 2 to 3. *)
Lemma loaded_window_rows_witness :
  exists df idx vs,
    load_and_filter_csv MoreSamples.parsed_m2 "close" = Ok df /\
    loc_slice df 2 3 = mkFrame idx [("close", vs)] /\
    length vs = length idx /\
    Sorted Z.le idx /\
    Forall (fun t => 2 <= t <= 3) idx /\
    Permutation
      (combine idx vs)
      (filter (fun r => (2 <=? fst r) && (fst r <=? 3))
              (combine [3; 1; 2] [Num 12; Num 10; Num 11])).
Proof.
  exact (loaded_window_rows MoreSamples.parsed_m2
           [Num 12; Num 10; Num 11] 2 3 wf_parsed_m2 eq_refl).
Defined.

(** X11 on the two loaded sample frames and the date 2. *)
Lemma merged_rows_share_date_witness :
  exists m2 stock,
    columns (merged_frame csv_m2 csv_stock)
    = [("close_m2", m2); ("close_stock", stock)] /\
    ((exists n,
        nth_error (index (merged_frame csv_m2 csv_stock)) n = Some 2 /\
        nth_error m2 n = Some (Num 11) /\ nth_error stock n = Some (Num 7))
     <->
     (exists i j,
        nth_error (index csv_m2) i = Some 2 /\
        nth_error [Num 10; Num 11; Num 12] i = Some (Num 11) /\
        nth_error (index csv_stock) j = Some 2 /\
        nth_error [Num 7; Num 8; Num 9] j = Some (Num 7))).
Proof.
  exact (merged_rows_share_date csv_m2 csv_stock
           [Num 10; Num 11; Num 12] [Num 7; Num 8; Num 9] 2 (Num 11) (Num 7)
           eq_refl eq_refl eq_refl eq_refl).
Defined.

Lemma csv_m2_dates_ascend : StronglySorted Z.lt (index csv_m2).
Proof. repeat constructor; lia. Qed.

Lemma csv_stock_dates_ascend : StronglySorted Z.lt (index csv_stock).
Proof. repeat constructor; lia. Qed.

(** X12 on the two loaded sample frames. *)
Lemma merge_inner_keeps_ascending_witness :
  Sorted Z.le (index (merge_inner csv_m2 csv_stock)).
Proof.
  apply (merge_inner_keeps_ascending csv_m2 csv_stock);
    repeat constructor; cbn; lia.
Defined.

(** X13 on the two loaded sample frames. *)
Lemma merge_inner_keeps_dates_unique_witness :
  StronglySorted Z.lt (index (merge_inner csv_m2 csv_stock)).
Proof.
  exact (merge_inner_keeps_dates_unique csv_m2 csv_stock
           csv_m2_dates_ascend csv_stock_dates_ascend).
Defined.
